(** * Video converter worker: chunk merging, transcoding and idempotency

    A shallow embedding of the Go package [converter]
    (the [VideoConverter] methods [Handle], [processVideo], [logError],
    [extractNumber], [mergeChunks], and the free functions [IsProcessed],
    [MarkProcess], [RegisterError] of [idempotency.go]), with the properties
    of its specification stated and settled against it.

    Go values are modelled as follows.
    - [string] is a byte string: Rocq's [string]; [[]byte] is [list byte].
    - [int] is the 64-bit signed integer of the usual targets, modelled as
      [Z] with the range test of [strconv.Atoi] written out.
    - [error] is an interface value: [option error], [None] being [nil];
      only [err.Error()] and the [nil] test are ever used, so an error is
      its message.
    - The file system, the logger, the clock and the database are the
      mutable state of a [World]; every function with effects is a
      computation in the monad [M], which can also panic. *)

From Stdlib Require Import ZArith Lia List Sorted Permutation.
From Stdlib Require Import Strings.String Strings.Ascii Strings.Byte.
From stdpp Require Import base option list sorting gmap strings pretty.

Open Scope string_scope.
Open Scope list_scope.
Open Scope Z_scope.

(** ** Strings and paths *)

Definition error := string.

(** The double quote character, for messages that quote a value. *)
Definition dquote : string := String (ascii_of_nat 34) EmptyString.

Definition is_digit (c : ascii) : bool :=
  ((48 <=? nat_of_ascii c) && (nat_of_ascii c <=? 57))%nat.

Definition is_separator (c : ascii) : bool :=
  if ascii_dec c "/"%char then true else false.

(** [strip_trailing s] removes the slashes that end [s]. *)
Fixpoint strip_trailing (s : string) : string :=
  match s with
  | EmptyString => EmptyString
  | String c r =>
      match strip_trailing r with
      | EmptyString => if is_separator c then EmptyString else String c EmptyString
      | r' => String c r'
      end
  end.

(** [last_element s] is what follows the last slash of [s]
    (all of [s] when it has none). *)
Fixpoint last_element (s : string) : string :=
  match s with
  | EmptyString => EmptyString
  | String c r =>
      if existsb is_separator (list_ascii_of_string r) then last_element r
      else if is_separator c then r
      else s
  end.

(** [filepath.Base]: the last element of a path; trailing slashes are
    removed first; the empty path gives ".", a path of slashes gives "/". *)
Definition filepath_Base (path : string) : string :=
  match path with
  | EmptyString => "."
  | _ =>
      match last_element (strip_trailing path) with
      | EmptyString => "/"
      | b => b
      end
  end.

(** The elements of a path: what lies between its slashes. *)
Fixpoint path_elements (s : string) : list string :=
  match s with
  | EmptyString => [EmptyString]
  | String c r =>
      if is_separator c then EmptyString :: path_elements r
      else match path_elements r with
           | e :: es => String c e :: es
           | [] => [String c EmptyString]
           end
  end.

(** One turn of the loop of [filepath.Clean], which reads the path
    element by element. [kept] holds the elements written so far, the
    last one first. An empty element and [.] are skipped; [..] removes
    the element before it, unless there is none to remove: then it is
    dropped in a rooted path and written in a relative one. *)
Definition clean_step (rooted : bool) (kept : list string) (e : string)
  : list string :=
  if string_dec e EmptyString then kept
  else if string_dec e "." then kept
  else if string_dec e ".." then
    match kept with
    | top :: below => if string_dec top ".." then e :: kept else below
    | [] => if rooted then kept else [e]
    end
  else e :: kept.

Fixpoint join_elements (es : list string) : string :=
  match es with
  | [] => EmptyString
  | [e] => e
  | e :: rest => e +:+ "/" +:+ join_elements rest
  end.

(** [filepath.Clean]: the shortest path that names the same file by
    lexical processing alone. The empty path becomes [.]. *)
Definition filepath_Clean (path : string) : string :=
  match path with
  | EmptyString => "."
  | String c _ =>
      let rooted := is_separator c in
      let kept := rev (fold_left (clean_step rooted) (path_elements path) []) in
      match rooted, kept with
      | true, _ => "/" +:+ join_elements kept
      | false, [] => "."
      | false, _ => join_elements kept
      end
  end.

(** [filepath.Join] of two elements: empty elements are dropped, the
    others are joined by a slash and the result is cleaned. *)
Definition filepath_Join (dir name : string) : string :=
  match dir, name with
  | EmptyString, EmptyString => EmptyString
  | EmptyString, _ => filepath_Clean name
  | _, _ => filepath_Clean (dir +:+ "/" +:+ name)
  end.

(** ** The ordering key of a chunk *)

(** The digits that start [s]. *)
Fixpoint leading_digits (s : string) : string :=
  match s with
  | String c r => if is_digit c then String c (leading_digits r) else EmptyString
  | EmptyString => EmptyString
  end.

(** [regexp.MustCompile(`\d+`).FindString]: the leftmost match of one or
    more ASCII digits, as long as possible; the empty string when there
    is none. The pattern is a constant that compiles, so [MustCompile]
    does not panic. *)
Fixpoint regexp_digits_FindString (s : string) : string :=
  match s with
  | EmptyString => EmptyString
  | String c r =>
      if is_digit c then String c (leading_digits r)
      else regexp_digits_FindString r
  end.

Definition digit_value (c : ascii) : Z := Z.of_nat (nat_of_ascii c) - 48.

(** The number a string of digits denotes, most significant digit first. *)
Fixpoint decimal_value (acc : Z) (s : string) : Z :=
  match s with
  | EmptyString => acc
  | String c r => decimal_value (10 * acc + digit_value c) r
  end.

Definition all_digits (s : string) : bool :=
  forallb is_digit (list_ascii_of_string s).

Definition intSize : Z := 64.
Definition maxInt : Z := 2 ^ (intSize - 1) - 1.
Definition minInt : Z := - 2 ^ (intSize - 1).

Definition atoi_error (s reason : string) : error :=
  "strconv.Atoi: parsing " +:+ dquote +:+ s +:+ dquote +:+ ": " +:+ reason.

(** [strconv.Atoi]: an optional sign, then one or more decimal digits.
    A string of another shape is a syntax error (value 0); a number
    outside the range of [int] is a range error (value: the nearest
    bound). *)
Definition strconv_Atoi (s : string) : Z * option error :=
  let '(neg, body) :=
    match s with
    | String "-"%char r => (true, r)
    | String "+"%char r => (false, r)
    | _ => (false, s)
    end in
  match body with
  | EmptyString => (0, Some (atoi_error s "invalid syntax"))
  | _ =>
      if all_digits body then
        let n := decimal_value 0 body in
        let v := if neg then - n else n in
        if v <? minInt then (minInt, Some (atoi_error s "value out of range"))
        else if maxInt <? v then (maxInt, Some (atoi_error s "value out of range"))
        else (v, None)
      else (0, Some (atoi_error s "invalid syntax"))
  end.

(** [extractNumber]: the number in the file's base name, or -1. *)
Definition extractNumber (fileName : string) : Z :=
  let numStr := regexp_digits_FindString (filepath_Base fileName) in
  match strconv_Atoi numStr with
  | (num, None) => num
  | (_, Some _) => -1
  end.

(** ** The world: files, logger, clock, database *)

(** What a path names. A [Faulty] file delivers [data] and then fails
    with a read error (a bad sector, a vanished network mount); reading
    a [Directory] fails at once. *)
Inductive node :=
  | Regular (data : list byte)
  | Faulty (data : list byte) (e : error)
  | Directory.

(** How an external command ends: it does not start, or it runs, changes
    files, prints [output] (standard output and standard error, merged)
    and exits with [code]. *)
Inductive ProcResult :=
  | NotStarted (e : error)
  | Exited (fs' : gmap string node) (output : list byte) (code : Z).

(** Values of a [map[string]any]. *)
Inductive any :=
  | AnyInt (n : Z)
  | AnyString (s : string)
  | AnyTime (t : nat).

Inductive Level := LevelInfo | LevelError.

#[global] Instance Level_eq_dec : EqDecision Level.
Proof. solve_decision. Defined.

(** Values of log attributes. [json.Marshal] is kept symbolic: [VJson m]
    stands for the serialization of the map [m]. *)
Inductive Value :=
  | VString (s : string)
  | VInt (n : Z)
  | VJson (m : gmap string any).

Record LogRecord := mkLog {
  log_level : Level;
  log_msg : string;
  log_attrs : list (string * Value)
}.

(** The statements the package sends to the database. *)
Inductive Stmt :=
  | SelectProcessed (video_id : Z)
  | InsertProcessed (video_id : Z) (status : string) (processed_at : nat)
  | InsertError (error_details : gmap string any) (created_at : nat).

Record Database := mkDb {
  processed_videos : list (Z * string * nat);
  process_errors_log : list (gmap string any * nat);
  (** every statement received so far, oldest first *)
  db_statements : list Stmt;
  (** the statements the server rejects, with the error it answers *)
  db_fault : Stmt -> option error
}.

Record World := mkWorld {
  w_fs : gmap string node;
  (** free bytes on the device; [None]: no limit *)
  w_space : option nat;
  (** what the system answers to a write when the device is full: the
      system call that failed and its error *)
  w_write_cause : error;
  w_clock : nat;
  w_log : list LogRecord;
  w_db : Database;
  (** what the directory enumeration answers for a pattern *)
  w_glob : string -> list string * option error;
  (** paths that cannot be created, opened for reading, made a
      directory, removed *)
  w_deny_create : string -> option error;
  w_deny_open : string -> option error;
  w_deny_mkdir : string -> option error;
  w_deny_remove : string -> option error;
  (** the behaviour of external commands *)
  w_exec : list string -> gmap string node -> ProcResult
}.

Definition set_fs (fs : gmap string node) (w : World) : World :=
  mkWorld fs (w_space w) (w_write_cause w) (w_clock w) (w_log w) (w_db w)
    (w_glob w)
    (w_deny_create w) (w_deny_open w) (w_deny_mkdir w) (w_deny_remove w)
    (w_exec w).

Definition set_space (sp : option nat) (w : World) : World :=
  mkWorld (w_fs w) sp (w_write_cause w) (w_clock w) (w_log w) (w_db w)
    (w_glob w)
    (w_deny_create w) (w_deny_open w) (w_deny_mkdir w) (w_deny_remove w)
    (w_exec w).

Definition set_clock (t : nat) (w : World) : World :=
  mkWorld (w_fs w) (w_space w) (w_write_cause w) t (w_log w) (w_db w)
    (w_glob w)
    (w_deny_create w) (w_deny_open w) (w_deny_mkdir w) (w_deny_remove w)
    (w_exec w).

Definition set_log (l : list LogRecord) (w : World) : World :=
  mkWorld (w_fs w) (w_space w) (w_write_cause w) (w_clock w) l (w_db w)
    (w_glob w)
    (w_deny_create w) (w_deny_open w) (w_deny_mkdir w) (w_deny_remove w)
    (w_exec w).

Definition set_db (d : Database) (w : World) : World :=
  mkWorld (w_fs w) (w_space w) (w_write_cause w) (w_clock w) (w_log w) d
    (w_glob w)
    (w_deny_create w) (w_deny_open w) (w_deny_mkdir w) (w_deny_remove w)
    (w_exec w).

(** ** Computations *)

(** A call either returns a value and a new world, or panics. *)
Inductive Outcome (A : Type) :=
  | Returned (a : A) (w : World)
  | Panicked (reason : string).
Arguments Returned {A} a w.
Arguments Panicked {A} reason.

Definition M (A : Type) : Type := World -> Outcome A.

#[global] Instance M_ret : MRet M := fun A a w => Returned a w.
#[global] Instance M_bind : MBind M := fun A B f m w =>
  match m w with
  | Returned a w' => f a w'
  | Panicked r => Panicked r
  end.

Definition panic {A} (reason : string) : M A := fun _ => Panicked reason.

(** *** Logging and time *)

Definition slog_Info (msg : string) (attrs : list (string * Value)) : M unit :=
  fun w => Returned tt (set_log (w_log w ++ [mkLog LevelInfo msg attrs]) w).

Definition slog_Error (msg : string) (attrs : list (string * Value)) : M unit :=
  fun w => Returned tt (set_log (w_log w ++ [mkLog LevelError msg attrs]) w).

Definition time_Now : M nat :=
  fun w => Returned (w_clock w) (set_clock (S (w_clock w)) w).

(** *** Files *)

(** An open file is known by its path. *)
Abbreviation File := string.

Definition filepath_Glob (pattern : string) : M (list string * option error) :=
  fun w => Returned (w_glob w pattern) w.

(** [os.Create]: create or truncate. *)
Definition os_Create (name : string) : M (File + error) :=
  fun w =>
    match w_deny_create w name, w_fs w !! name with
    | Some e, _ => Returned (inr ("open " +:+ name +:+ ": " +:+ e)) w
    | None, Some Directory =>
        Returned (inr ("open " +:+ name +:+ ": is a directory")) w
    | None, _ => Returned (inl name) (set_fs (<[name := Regular []]> (w_fs w)) w)
    end.

(** [os.Open]: open for reading. A file that exists may still be
    refused (no permission to read it). *)
Definition os_Open (name : string) : M (File + error) :=
  fun w =>
    match w_deny_open w name, w_fs w !! name with
    | Some e, _ => Returned (inr ("open " +:+ name +:+ ": " +:+ e)) w
    | None, None =>
        Returned (inr ("open " +:+ name +:+ ": no such file or directory")) w
    | None, Some _ => Returned (inl name) w
    end.

Definition File_Close (f : File) : M unit := mret tt.

Definition append_data (d : list byte) (n : node) : node :=
  match n with
  | Regular old => Regular (old ++ d)
  | Faulty old e => Faulty (old ++ d) e
  | Directory => Directory
  end.

(** Writing [d] at the end of [output]: as many bytes as the device has
    room for; a short write is an error, whose cause is the one the
    system reports. *)
Definition write_end (output : File) (d : list byte) (w : World)
  : nat * option error * World :=
  let room := match w_space w with
              | None => length d
              | Some free => Nat.min free (length d)
              end in
  let w' := set_space ((fun free => (free - room)%nat) <$> w_space w)
              (set_fs (alter (append_data (take room d)) output (w_fs w)) w) in
  if (room <? length d)%nat
  then (room, Some ("write " +:+ output +:+ ": " +:+ w_write_cause w), w')
  else (room, None, w').

(** [output.ReadFrom(input)]: copy [input] to the end of [output] until
    [input] is exhausted or an error occurs; the bytes copied before the
    error stay in [output]. *)
Definition File_ReadFrom (output input : File) : M (Z * option error) :=
  fun w =>
    match w_fs w !! input with
    | None => Returned (0, Some ("read " +:+ input +:+ ": file already closed")) w
    | Some Directory => Returned (0, Some ("read " +:+ input +:+ ": is a directory")) w
    | Some (Regular d) =>
        let '(n, err, w') := write_end output d w in
        Returned (Z.of_nat n, err) w'
    | Some (Faulty d e) =>
        let '(n, err, w') := write_end output d w in
        match err with
        | Some _ => Returned (Z.of_nat n, err) w'
        | None => Returned (Z.of_nat n, Some ("read " +:+ input +:+ ": " +:+ e)) w'
        end
    end.

(** [os.MkdirAll]: nothing to do when the directory exists. *)
Definition os_MkdirAll (path : string) : M (option error) :=
  fun w =>
    match w_deny_mkdir w path, w_fs w !! path with
    | Some e, _ => Returned (Some ("mkdir " +:+ path +:+ ": " +:+ e)) w
    | None, Some Directory => Returned None w
    | None, Some _ => Returned (Some ("mkdir " +:+ path +:+ ": not a directory")) w
    | None, None => Returned None (set_fs (<[path := Directory]> (w_fs w)) w)
    end.

Definition os_Remove (name : string) : M (option error) :=
  fun w =>
    match w_deny_remove w name, w_fs w !! name with
    | Some e, _ => Returned (Some ("remove " +:+ name +:+ ": " +:+ e)) w
    | None, None =>
        Returned (Some ("remove " +:+ name +:+ ": no such file or directory")) w
    | None, Some _ => Returned None (set_fs (delete name (w_fs w)) w)
    end.

(** *** External commands *)

(** [exec.Command(args...).CombinedOutput()]: the error is [nil] exactly
    when the command started and exited with code zero. *)
Definition exec_CombinedOutput (args : list string) : M (list byte * option error) :=
  fun w =>
    match w_exec w args (w_fs w) with
    | NotStarted e => Returned ([], Some e) w
    | Exited fs' output code =>
        Returned (output,
                  if code =? 0 then None else Some ("exit status " +:+ pretty code))
                 (set_fs fs' w)
    end.

(** *** Database *)

Definition apply_stmt (s : Stmt) (d : Database) : Database :=
  match s with
  | SelectProcessed _ => d
  | InsertProcessed id status t =>
      mkDb (processed_videos d ++ [(id, status, t)]) (process_errors_log d)
        (db_statements d) (db_fault d)
  | InsertError details t =>
      mkDb (processed_videos d) (process_errors_log d ++ [(details, t)])
        (db_statements d) (db_fault d)
  end.

Definition record_stmt (s : Stmt) (d : Database) : Database :=
  mkDb (processed_videos d) (process_errors_log d) (db_statements d ++ [s])
    (db_fault d).

(** [db.Exec] of an insertion: a rejected statement changes no table. *)
Definition db_Exec (s : Stmt) : M (option error) :=
  fun w =>
    let d := record_stmt s (w_db w) in
    match db_fault d s with
    | Some e => Returned (Some e) (set_db d w)
    | None => Returned None (set_db (apply_stmt s d) w)
    end.

Definition is_success_row (video_id : Z) (row : Z * string * nat) : bool :=
  let '(id, status, _) := row in
  (id =? video_id) && (if string_dec status "success" then true else false).

(** [db.QueryRow(query, videoID).Scan(&b)] for the query
    [SELECT EXISTS(SELECT 1 FROM processed_videos where video_id = $1
    and status='success')]. On error the destination keeps its zero
    value. *)
Definition db_QueryRow_Scan_exists (video_id : Z) : M (bool * option error) :=
  fun w =>
    let s := SelectProcessed video_id in
    let d := record_stmt s (w_db w) in
    match db_fault d s with
    | Some e => Returned (false, Some e) (set_db d w)
    | None =>
        Returned (existsb (is_success_row video_id) (processed_videos d), None)
                 (set_db d w)
    end.

(** ** The package [converter] *)

(** [VideoTask]: a video conversion task. *)
Record VideoTask := mkTask {
  VideoID : Z;
  Path : string
}.

Definition zero_task : VideoTask := mkTask 0 "".

Section Converter.

(** Two library functions are parameters of the package.
    - [sort.Slice] over a slice of strings, with the comparison on
      elements. Its documentation promises a sorted rearrangement of
      the slice and states that the sort is not guaranteed to be stable.
      What holds of every such sort is stated for the parameter; the
      algorithm of the library, [sort.Slice] of the module [sort]
      below, is the argument where the order of equal elements counts.
    - [json.Unmarshal] into a [VideoTask]: the task as far as it was
      filled, and the error if the message does not decode. *)
Variable sort_Slice : (string -> string -> bool) -> list string -> list string.
Variable json_Unmarshal : list byte -> VideoTask -> VideoTask * option error.

(** [logError]: logs the error in JSON format. Calling [err.Error()] on
    a [nil] error is a nil dereference. The source ends with the comment
    [todo: register error on database]: nothing is sent to the database. *)
Definition logError (task : VideoTask) (message : string) (err : option error)
  : M unit :=
  match err with
  | None => panic "invalid memory address or nil pointer dereference"
  | Some details =>
      now ← time_Now;
      let errorData : gmap string any :=
        {[ "video_id" := AnyInt (VideoID task);
           "error" := AnyString message;
           "details" := AnyString details;
           "time" := AnyTime now ]} in
      slog_Error "Processing error" [("error_details", VJson errorData)]
  end.

(** The comparison handed to [sort.Slice]. *)
Definition chunk_less (a b : string) : bool :=
  extractNumber a <? extractNumber b.

(** The loop of [mergeChunks] over the sorted chunks. *)
Fixpoint copyChunks (output : File) (chunks : list string) : M (option error) :=
  match chunks with
  | [] => mret None
  | chunk :: rest =>
      r ← os_Open chunk;
      match r with
      | inr err => mret (Some ("failed to open chunk: " +:+ err))
      | inl input =>
          '(_, err) ← File_ReadFrom output input;
          match err with
          | Some e =>
              mret (Some ("failed to write chunk " +:+ chunk +:+
                          " to merged file: " +:+ e))
          | None => File_Close input;; copyChunks output rest
          end
      end
  end.

(** [mergeChunks]: find the chunks, sort them by number, create the
    output file and copy each chunk to it. *)
Definition mergeChunks (inputDir outputFile : string) : M (option error) :=
  '(chunks, err) ← filepath_Glob (filepath_Join inputDir "*.chunk");
  match err with
  | Some e => mret (Some ("failed to find chunks: " +:+ e))
  | None =>
      let chunks := sort_Slice chunk_less chunks in
      r ← os_Create outputFile;
      match r with
      | inr e => mret (Some ("failed to create output file: " +:+ e))
      | inl output =>
          err ← copyChunks output chunks;
          File_Close output;;
          mret err
      end
  end.

(** [processVideo]: merge the chunks and convert the result. *)
Definition processVideo (task : VideoTask) : M (option error) :=
  let mergedFile := filepath_Join (Path task) "merged.mp4" in
  let mpegDashPath := filepath_Join (Path task) "mpeg-dash" in
  slog_Info "Merging chunks" [("path", VString (Path task))];;
  err ← mergeChunks (Path task) mergedFile;
  match err with
  | Some _ => logError task "failed to merge chunks" err;; mret err
  | None =>
  slog_Info "Creating mpeg-dash dir" [("path", VString (Path task))];;
  err ← os_MkdirAll mpegDashPath;
  match err with
  | Some _ => logError task "failed to create mpeg-dash directory" err;; mret err
  | None =>
  slog_Info "Converting video to mpeg-dash" [("path", VString (Path task))];;
  '(output, err) ← exec_CombinedOutput
      ["ffmpeg"; "-i"; mergedFile; "-f"; "dash";
       filepath_Join mpegDashPath "output.mpd"];
  match err with
  | Some _ =>
      logError task ("failed to convert video to mpeg-dash, output: " +:+
                     string_of_list_byte output) err;;
      mret err
  | None =>
  slog_Info "Video convert to mpeg-dash" [("path", VString mpegDashPath)];;
  slog_Info "Removing merged file" [("path", VString mergedFile)];;
  err ← os_Remove mergedFile;
  match err with
  | Some _ => logError task "failed to remove merged file" err;; mret err
  | None => mret None
  end end end end.

(** [Handle]: processes a video conversion message. *)
Definition Handle (msg : list byte) : M unit :=
  let '(task, err) := json_Unmarshal msg zero_task in
  match err with
  | Some _ => logError task "failed to unmarshal task" err
  | None =>
      err ← processVideo task;
      match err with
      | Some _ => logError task "failed to process video" err
      | None => mret tt
      end
  end.

End Converter.

(** ** The idempotency store ([idempotency.go])

    The [*sql.DB] argument of the three functions is the handle of the
    one database of the world. *)

(** [IsProcessed]: has the video been processed successfully? *)
Definition IsProcessed (videoID : Z) : M bool :=
  '(isProcessed, err) ← db_QueryRow_Scan_exists videoID;
  match err with
  | Some _ =>
      slog_Error "Error checking if video is processed"
        [("video_id", VInt videoID)];;
      mret false
  | None => mret isProcessed
  end.

(** [MarkProcess]: registers that the video has been processed. *)
Definition MarkProcess (videoID : Z) : M (option error) :=
  now ← time_Now;
  err ← db_Exec (InsertProcessed videoID "success" now);
  match err with
  | Some _ =>
      slog_Error "Error marking video as processed" [("video_id", VInt videoID)];;
      mret err
  | None => mret None
  end.

(** [RegisterError]: stores the error details in the database. *)
Definition RegisterError (errorData : gmap string any) (err : option error)
  : M unit :=
  now ← time_Now;
  dbErr ← db_Exec (InsertError errorData now);
  match dbErr with
  | Some e =>
      slog_Error "Error storing error log in database" [("error", VString e)]
  | None =>
      match err with
      | None => panic "invalid memory address or nil pointer dereference"
      | Some e => slog_Info "Error log stored successfully" [("error", VString e)]
      end
  end.

(** ** What [sort.Slice] promises

    The documentation of package [sort] asks that [less] be a strict
    weak ordering: no element is less than itself, [less] is
    transitive, and so is its negation. The slice is then rearranged so
    that no element is less than one before it. Equal elements may end
    up in any order. *)

Definition strict_weak_ordering (less : string -> string -> bool) : Prop :=
  (forall a, less a a = false) /\
  (forall a b c, less a b = true -> less b c = true -> less a c = true) /\
  (forall a b c, less a b = false -> less b c = false -> less a c = false).

Definition not_after (less : string -> string -> bool) (a b : string) : Prop :=
  less b a = false.

Definition sort_contract
  (sort : (string -> string -> bool) -> list string -> list string) : Prop :=
  (forall less l, Permutation (sort less l) l) /\
  (forall less l, strict_weak_ordering less -> Sorted (not_after less) (sort less l)).

(** Two sorts that keep the promise. [insertion_sort] puts each element
    before the first element that is not less than it, and is stable;
    [ties_reversed_sort] puts it before the first element it is less
    than, after the elements equal to it. *)

Fixpoint insert_stable (less : string -> string -> bool) (x : string)
  (l : list string) : list string :=
  match l with
  | [] => [x]
  | y :: r => if less y x then y :: insert_stable less x r else x :: y :: r
  end.

Definition insertion_sort (less : string -> string -> bool) (l : list string)
  : list string :=
  fold_right (insert_stable less) [] l.



(** ** [sort.Slice]: the algorithm of the Go library

    [sort.Slice] (Go 1.19 and later) is pattern-defeating quicksort,
    [pdqsort_func] of [sort/zsortfunc.go], run on the whole slice. The
    slice is read and written in place through [Less] and [Swap] on
    indices; here the slice is a value that every function returns.
    Loops that end by a test on the data carry a bound on their number
    of turns. *)
Module sort.
Section Slice.

Context {A : Type} (less : A -> A -> bool).

(** [data.Less(i, j)] and [data.Swap(i, j)]. The algorithm stays within
    the slice; an index outside of it, on which Go panics, makes [Less]
    false and [Swap] a no-op. *)
Definition Less (data : list A) (i j : nat) : bool :=
  match data !! i, data !! j with
  | Some x, Some y => less x y
  | _, _ => false
  end.

Definition Swap (data : list A) (i j : nat) : list A :=
  match data !! i, data !! j with
  | Some x, Some y => <[i := y]> (<[j := x]> data)
  | _, _ => data
  end.

(** The inner loop of [insertionSort_func]:
    [for j := i; j > a && data.Less(j, j-1); j-- { data.Swap(j, j-1) }]. *)
Fixpoint insertion_shift (a j : nat) (data : list A) : list A :=
  match j with
  | O => data
  | S j' =>
      if (a <? j)%nat && Less data j j'
      then insertion_shift a j' (Swap data j j')
      else data
  end.

(** [insertionSort_func] sorts [data[a:b]] by insertion:
    [for i := a + 1; i < b; i++]. *)
Definition insertionSort_func (data : list A) (a b : nat) : list A :=
  fold_left (fun data i => insertion_shift a i data) (seq (S a) (b - S a)) data.

(** [siftDown_func] restores the heap property on [data[lo:hi]], seen
    from the offset [first]. *)
Fixpoint siftDown_func (turns : nat) (data : list A) (root hi first : nat)
  : list A :=
  match turns with
  | O => data
  | S turns' =>
      let child := (2 * root + 1)%nat in
      if (hi <=? child)%nat then data
      else
        let child :=
          if (child + 1 <? hi)%nat && Less data (first + child) (first + child + 1)
          then (child + 1)%nat else child in
        if negb (Less data (first + root) (first + child)) then data
        else siftDown_func turns' (Swap data (first + root) (first + child))
               child hi first
  end.

Definition heapSort_func (data : list A) (a b : nat) : list A :=
  let first := a in
  let lo := 0%nat in
  let hi := (b - a)%nat in
  (* for i := (hi - 1) / 2; i >= 0; i-- *)
  let data :=
    fold_left (fun data i => siftDown_func hi data i hi first)
      (rev (seq 0 (S ((hi - 1) / 2)))) data in
  (* for i := hi - 1; i >= 0; i-- *)
  fold_left (fun data i => siftDown_func hi (Swap data first (first + i)) lo i first)
    (rev (seq 0 hi)) data.

(** [bits.Len]: the number of bits of a number, 0 for 0. *)
Definition bits_Len (n : nat) : nat := N.to_nat (N.size (N.of_nat n)).

Definition nextPowerOfTwo (length : nat) : nat := (2 ^ bits_Len length)%nat.

(** The random numbers of [breakPatterns_func]: a 64-bit xorshift. *)
Definition uint64 (n : N) : N := (n mod 2 ^ 64)%N.

Definition xorshift_Next (r : N) : N :=
  let r := N.lxor r (uint64 (N.shiftl r 13)) in
  let r := N.lxor r (N.shiftr r 7) in
  N.lxor r (uint64 (N.shiftl r 17)).

(** [breakPatterns_func] scatters three elements to break patterns that
    make quicksort partition badly. *)
Definition breakPatterns_func (data : list A) (a b : nat) : list A :=
  let length := (b - a)%nat in
  if (8 <=? length)%nat then
    let modulus := nextPowerOfTwo length in
    let idx := (a + (length / 4) * 2 - 1)%nat in
    fst (fold_left
           (fun '(data, random) i =>
              let random := xorshift_Next random in
              let other := N.to_nat (N.land random (N.of_nat (modulus - 1))) in
              let other :=
                if (length <=? other)%nat then (other - length)%nat else other in
              (Swap data (idx - 1 + i) (a + other), random))
           [0; 1; 2]%nat (data, N.of_nat length))
  else data.

Inductive sortedHint := unknownHint | increasingHint | decreasingHint.

(** [order2_func] returns [a] and [b] in the order of their elements,
    and counts the exchange. *)
Definition order2_func (data : list A) (a b swaps : nat) : nat * nat * nat :=
  if Less data b a then (b, a, S swaps) else (a, b, swaps).

(** [median_func]: the index of the median of three elements. *)
Definition median_func (data : list A) (a b c swaps : nat) : nat * nat :=
  let '(a, b, swaps) := order2_func data a b swaps in
  let '(b, c, swaps) := order2_func data b c swaps in
  let '(a, b, swaps) := order2_func data a b swaps in
  (b, swaps).

Definition medianAdjacent_func (data : list A) (a swaps : nat) : nat * nat :=
  median_func data (a - 1) a (a + 1) swaps.

(** [choosePivot_func]: a static pivot below 8 elements, the median of
    three below 50, Tukey's ninther from 50 on. *)
Definition choosePivot_func (data : list A) (a b : nat) : nat * sortedHint :=
  let l := (b - a)%nat in
  let i := (a + l / 4 * 1)%nat in
  let j := (a + l / 4 * 2)%nat in
  let k := (a + l / 4 * 3)%nat in
  let '(j, swaps) :=
    if (8 <=? l)%nat then
      let '(i, j, k, swaps) :=
        if (50 <=? l)%nat then
          let '(i, swaps) := medianAdjacent_func data i 0 in
          let '(j, swaps) := medianAdjacent_func data j swaps in
          let '(k, swaps) := medianAdjacent_func data k swaps in
          (i, j, k, swaps)
        else (i, j, k, 0%nat) in
      median_func data i j k swaps
    else (j, 0%nat) in
  (j, match swaps with
      | 0%nat => increasingHint
      | 12%nat => decreasingHint
      | _ => unknownHint
      end).

(** [reverseRange_func]: [for i < j { Swap(i, j); i++; j-- }]. *)
Fixpoint reverse_loop (turns : nat) (data : list A) (i j : nat) : list A :=
  match turns with
  | O => data
  | S turns' =>
      if (i <? j)%nat then reverse_loop turns' (Swap data i j) (S i) (j - 1)
      else data
  end.

Definition reverseRange_func (data : list A) (a b : nat) : list A :=
  reverse_loop (b - a) data a (b - 1).

(** The loops of [partialInsertionSort_func]. *)

(** [for i < b && !data.Less(i, i-1) { i++ }] *)
Fixpoint skip_ordered (turns : nat) (data : list A) (i b : nat) : nat :=
  match turns with
  | O => i
  | S turns' =>
      if (i <? b)%nat && negb (Less data i (i - 1))
      then skip_ordered turns' data (S i) b
      else i
  end.

(** [for j := i - 1; j >= 1; j-- { if !data.Less(j, j-1) { break };
    data.Swap(j, j-1) }] *)
Fixpoint shift_smaller (j : nat) (data : list A) : list A :=
  match j with
  | O => data
  | S j' =>
      if Less data j j' then shift_smaller j' (Swap data j j') else data
  end.

(** [for j := i + 1; j < b; j++ { if !data.Less(j, j-1) { break };
    data.Swap(j, j-1) }] *)
Fixpoint shift_greater (turns : nat) (data : list A) (j b : nat) : list A :=
  match turns with
  | O => data
  | S turns' =>
      if (j <? b)%nat && Less data j (j - 1)
      then shift_greater turns' (Swap data j (j - 1)) (S j) b
      else data
  end.

(** [for j := 0; j < maxSteps; j++] *)
Fixpoint partialInsertionSort_loop (steps : nat) (data : list A) (i a b : nat)
  : bool * list A :=
  match steps with
  | O => (false, data)
  | S steps' =>
      let i := skip_ordered (b - i) data i b in
      if (i =? b)%nat then (true, data)
      else if (b - a <? 50)%nat then (false, data)
      else
        let data := Swap data i (i - 1) in
        let data :=
          if (2 <=? i - a)%nat then shift_smaller (i - 1) data else data in
        let data :=
          if (2 <=? b - i)%nat then shift_greater (b - i) data (i + 1) b
          else data in
        partialInsertionSort_loop steps' data i a b
  end.

(** [partialInsertionSort_func] moves a few elements of a slice that is
    almost sorted, and tells whether the slice is sorted at the end.
    Below 50 elements it moves nothing. *)
Definition partialInsertionSort_func (data : list A) (a b : nat)
  : bool * list A :=
  partialInsertionSort_loop 5 data (a + 1) a b.

(** The loops of [partition_func]. *)

(** [for i <= j && data.Less(i, a) { i++ }] *)
Fixpoint scan_less (turns : nat) (data : list A) (i j a : nat) : nat :=
  match turns with
  | O => i
  | S turns' =>
      if (i <=? j)%nat && Less data i a then scan_less turns' data (S i) j a
      else i
  end.

(** [for i <= j && !data.Less(j, a) { j-- }] *)
Fixpoint scan_not_less (turns : nat) (data : list A) (i j a : nat) : nat :=
  match turns with
  | O => j
  | S turns' =>
      if (i <=? j)%nat && negb (Less data j a)
      then scan_not_less turns' data i (j - 1) a
      else j
  end.

Fixpoint partition_loop (turns : nat) (data : list A) (i j a : nat)
  : nat * nat * list A :=
  match turns with
  | O => (i, j, data)
  | S turns' =>
      let i := scan_less (S j - i) data i j a in
      let j := scan_not_less (S j - i) data i j a in
      if (j <? i)%nat then (i, j, data)
      else partition_loop turns' (Swap data i j) (S i) (j - 1) a
  end.

(** [partition_func]: one quicksort partition around [data[pivot]];
    answers the new place of the pivot and whether the slice was
    already partitioned. *)
Definition partition_func (data : list A) (a b pivot : nat)
  : nat * bool * list A :=
  let data := Swap data a pivot in
  let i := (a + 1)%nat in
  let j := (b - 1)%nat in
  let i := scan_less (S j - i) data i j a in
  let j := scan_not_less (S j - i) data i j a in
  if (j <? i)%nat then (j, true, Swap data j a)
  else
    let data := Swap data i j in
    let '(i, j, data) := partition_loop (b - a) data (S i) (j - 1) a in
    (j, false, Swap data j a).

(** The loops of [partitionEqual_func]. *)

(** [for i <= j && !data.Less(a, i) { i++ }] *)
Fixpoint scan_equal (turns : nat) (data : list A) (i j a : nat) : nat :=
  match turns with
  | O => i
  | S turns' =>
      if (i <=? j)%nat && negb (Less data a i)
      then scan_equal turns' data (S i) j a
      else i
  end.

(** [for i <= j && data.Less(a, j) { j-- }] *)
Fixpoint scan_greater (turns : nat) (data : list A) (i j a : nat) : nat :=
  match turns with
  | O => j
  | S turns' =>
      if (i <=? j)%nat && Less data a j
      then scan_greater turns' data i (j - 1) a
      else j
  end.

Fixpoint partitionEqual_loop (turns : nat) (data : list A) (i j a : nat)
  : nat * list A :=
  match turns with
  | O => (i, data)
  | S turns' =>
      let i := scan_equal (S j - i) data i j a in
      let j := scan_greater (S j - i) data i j a in
      if (j <? i)%nat then (i, data)
      else partitionEqual_loop turns' (Swap data i j) (S i) (j - 1) a
  end.

(** [partitionEqual_func]: the elements equal to the pivot first, the
    greater ones after them. *)
Definition partitionEqual_func (data : list A) (a b pivot : nat)
  : nat * list A :=
  let data := Swap data a pivot in
  partitionEqual_loop (b - a) data (a + 1) (b - 1) a.

(** [pdqsort_func] sorts [data[a:b]]. One turn of its loop is one call
    here; the loop variables [wasBalanced] and [wasPartitioned] are
    arguments, [true] on entry. [limit] is the number of badly balanced
    partitions allowed before the fall-back to heapsort. Every turn
    shortens the range, so [calls] above its length is never used up. *)
Fixpoint pdqsort_func (calls : nat) (data : list A) (a b limit : nat)
  (wasBalanced wasPartitioned : bool) : list A :=
  match calls with
  | O => data
  | S calls' =>
      let length := (b - a)%nat in
      if (length <=? 12)%nat then insertionSort_func data a b
      else if (limit =? 0)%nat then heapSort_func data a b
      else
        let '(data, limit) :=
          if wasBalanced then (data, limit)
          else (breakPatterns_func data a b, (limit - 1)%nat) in
        let '(pivot, hint) := choosePivot_func data a b in
        let '(data, pivot, hint) :=
          match hint with
          | decreasingHint =>
              (reverseRange_func data a b, (b - 1 - (pivot - a))%nat,
               increasingHint)
          | _ => (data, pivot, hint)
          end in
        let '(sorted, data) :=
          match wasBalanced && wasPartitioned, hint with
          | true, increasingHint => partialInsertionSort_func data a b
          | _, _ => (false, data)
          end in
        if sorted then data
        else if (0 <? a)%nat && negb (Less data (a - 1) pivot) then
          let '(mid, data) := partitionEqual_func data a b pivot in
          pdqsort_func calls' data mid b limit wasBalanced wasPartitioned
        else
          let '(mid, alreadyPartitioned, data) :=
            partition_func data a b pivot in
          let leftLen := (mid - a)%nat in
          let rightLen := (b - mid)%nat in
          let balanceThreshold := (length / 8)%nat in
          if (leftLen <? rightLen)%nat then
            let data := pdqsort_func calls' data a mid limit true true in
            pdqsort_func calls' data (mid + 1) b limit
              (balanceThreshold <=? leftLen)%nat alreadyPartitioned
          else
            let data := pdqsort_func calls' data (mid + 1) b limit true true in
            pdqsort_func calls' data a mid limit
              (balanceThreshold <=? rightLen)%nat alreadyPartitioned
  end.

(** [sort.Slice(x, less)]. *)
Definition Slice (x : list A) : list A :=
  let length := length x in
  let limit := bits_Len length in
  pdqsort_func (S length) x 0 length limit true true.

End Slice.
End sort.

(** What insertion from the left computes. [sift_left less x q] puts
    [x] in its place among the elements before it, which [q] holds last
    first: [x] passes the elements it is less than. *)
Fixpoint sift_left {A} (less : A -> A -> bool) (x : A) (q : list A) : list A :=
  match q with
  | [] => [x]
  | y :: q' => if less x y then y :: sift_left less x q' else x :: q
  end.

Definition insertion_from_left {A} (less : A -> A -> bool) (l : list A)
  : list A :=
  rev (fold_left (fun q x => sift_left less x q) l []).

(** ** The specification's ordering key

    "The first maximal run of decimal digits in the base filename",
    stated on its own: the name splits into a part without digits, the
    run, and a rest that does not start with a digit. *)

Definition no_digit (s : string) : Prop :=
  forallb (fun c => negb (is_digit c)) (list_ascii_of_string s) = true.

Definition starts_without_digit (s : string) : Prop :=
  match s with
  | EmptyString => True
  | String c _ => is_digit c = false
  end.

Inductive first_digit_run : string -> string -> Prop :=
  | first_digit_run_intro pre run post :
      no_digit pre -> run <> EmptyString -> all_digits run = true ->
      starts_without_digit post ->
      first_digit_run (pre +:+ run +:+ post) run.

(** [embedded_integer name n]: the file name embeds the integer [n]. *)
Definition embedded_integer (fileName : string) (n : Z) : Prop :=
  exists run, first_digit_run (filepath_Base fileName) run /\
              n = decimal_value 0 run.

(** Ascending order of the embedded integers. *)
Definition embedded_le (a b : string) : Prop :=
  forall na nb, embedded_integer a na -> embedded_integer b nb -> na <= nb.

(** The bytes of a regular file. *)
Definition file_content (fs : gmap string node) (name : string) : list byte :=
  match fs !! name with
  | Some (Regular d) => d
  | _ => []
  end.

Definition is_regular (fs : gmap string node) (name : string) : Prop :=
  exists d, fs !! name = Some (Regular d).

(** The bytes the chunks hold together. *)
Definition total_size (fs : gmap string node) (chunks : list string) : nat :=
  length (concat (map (file_content fs) chunks)).

(** The device has room for [n] more bytes. *)
Definition has_room (w : World) (n : nat) : Prop :=
  match w_space w with
  | None => True
  | Some free => (n <= free)%nat
  end.

(** Every chunk may be opened for reading. *)
Definition may_open (w : World) (chunks : list string) : Prop :=
  Forall (fun c => w_deny_open w c = None) chunks.

(** ** Vocabulary of the properties *)

(** The bytes a path delivers when it is read to the end or to its fault. *)
Definition node_bytes (fs : gmap string node) (name : string) : list byte :=
  match fs !! name with
  | Some (Regular d) => d
  | Some (Faulty d _) => d
  | _ => []
  end.

(** [files_only w w']: a step from [w] to [w'] changed nothing but files
    and the free space. *)
Definition files_only (w w' : World) : Prop :=
  w' = set_space (w_space w') (set_fs (w_fs w') w).

(** How the copy loop ends. With [None] every chunk was a regular file
    and the output grew by all of them, in order. With an error, the
    chunks before the failing one are in the output, followed by the
    bytes of the failing chunk that were copied before the error: the
    loop leaves the output file as it is. *)
Definition copy_result (fs : gmap string node) (chunks : list string)
  (old : list byte) (r : option error) (out : option node) : Prop :=
  match r with
  | None =>
      Forall (is_regular fs) chunks /\
      out = Some (Regular (old ++ concat (map (file_content fs) chunks)))
  | Some e =>
      exists (copied : list string) (chunk : string) (rest : list string) k,
        chunks = copied ++ chunk :: rest /\
        Forall (is_regular fs) copied /\
        out = Some (Regular (old ++ concat (map (file_content fs) copied)
                                 ++ take k (node_bytes fs chunk))) /\
        ((exists cause, e = "failed to open chunk: " +:+ cause) \/
         (exists cause, e = "failed to write chunk " +:+ chunk +:+
                            " to merged file: " +:+ cause))
  end.

Ltac run := unfold mbind, mret, M_bind, M_ret in *.

(** What a run of [mergeChunks] leaves: its result and the output file. *)
Definition merge_outcome
  (sort : (string -> string -> bool) -> list string -> list string)
  (inputDir outputFile : string) (w : World)
  : option (option error * option node) :=
  match mergeChunks sort inputDir outputFile w with
  | Returned r w' => Some (r, w_fs w' !! outputFile)
  | Panicked _ => None
  end.

(** The world a run of [mergeChunks] ends in. *)
Definition merged_world
  (sort : (string -> string -> bool) -> list string -> list string)
  (inputDir outputFile : string) (w : World) : World :=
  match mergeChunks sort inputDir outputFile w with
  | Returned _ w' => w'
  | Panicked _ => w
  end.

(** The record [logError] writes at time [now]. *)
Definition error_record (task : VideoTask) (message details : string)
  (now : nat) : LogRecord :=
  mkLog LevelError "Processing error"
    [("error_details",
      VJson {[ "video_id" := AnyInt (VideoID task);
               "error" := AnyString message;
               "details" := AnyString details;
               "time" := AnyTime now ]})].

(** The world after [logError]: one more record, one more tick. *)
Definition logged_error (task : VideoTask) (message details : string)
  (w : World) : World :=
  set_log (w_log w ++ [error_record task message details (w_clock w)])
    (set_clock (S (w_clock w)) w).

(** The world after [slog.Info]. *)
Definition logged_info (msg : string) (attrs : list (string * Value))
  (w : World) : World :=
  set_log (w_log w ++ [mkLog LevelInfo msg attrs]) w.

(** The arguments [processVideo] gives to the transcoder. *)
Definition ffmpeg_args (task : VideoTask) : list string :=
  ["ffmpeg"; "-i"; filepath_Join (Path task) "merged.mp4"; "-f"; "dash";
   filepath_Join (filepath_Join (Path task) "mpeg-dash") "output.mpd"].

(** The world an outcome carries ([w] if it is a panic). *)
Definition world_of {A} (o : Outcome A) (w : World) : World :=
  match o with
  | Returned _ w' => w'
  | Panicked _ => w
  end.

(** ** Sample worlds

    One video directory, [/v], in several states. *)

Definition bytes_of (s : string) : list byte := list_byte_of_string s.

Definition empty_db : Database := mkDb [] [] [] (fun _ => None).

Definition never_denied : string -> option error := fun _ => None.

(** The enumeration of [/v/*.chunk] answers [chunks]. *)
Definition glob_v (chunks : list string) (pattern : string)
  : list string * option error :=
  if string_dec pattern "/v/*.chunk" then (chunks, None) else ([], None).

(** A transcoder that writes the manifest named by its last argument. *)
Definition ffmpeg_writes_manifest (args : list string) (fs : gmap string node)
  : ProcResult :=
  match last args with
  | Some manifest =>
      Exited (<[manifest := Regular (bytes_of "<MPD/>")]> fs)
        (bytes_of "muxing overhead: 0.1%") 0
  | None => NotStarted "exec: no command"
  end.

(** A transcoder that rejects its input. *)
Definition ffmpeg_rejects_input (args : list string) (fs : gmap string node)
  : ProcResult :=
  Exited fs (bytes_of "Invalid data found when processing input") 1.

(** The answer of Linux to a copy into a full device: the copy is made
    by the system call [copy_file_range]. *)
Definition device_full : error := "copy_file_range: no space left on device".

Definition video_world (files : list (string * node)) (chunks : list string)
  (space : option nat)
  (exec : list string -> gmap string node -> ProcResult) (db : Database)
  : World :=
  mkWorld (list_to_map files) space device_full 0%nat [] db (glob_v chunks)
    never_denied never_denied never_denied never_denied exec.

(** Three numbered chunks, enumerated out of order. *)
Definition numbered_files : list (string * node) :=
  [("/v/2.chunk", Regular (bytes_of "B"));
   ("/v/0.chunk", Regular (bytes_of "A"));
   ("/v/1.chunk", Regular (bytes_of "C"))].

Definition numbered_chunks : list string :=
  ["/v/2.chunk"; "/v/0.chunk"; "/v/1.chunk"].

Definition world_numbered : World :=
  video_world numbered_files numbered_chunks None ffmpeg_writes_manifest empty_db.

(** A chunk whose number is 2^63, one more than the largest [int]. *)
Definition beyond_int_files : list (string * node) :=
  [("/v/1.chunk", Regular (bytes_of "A"));
   ("/v/9223372036854775808.chunk", Regular (bytes_of "B"))].

Definition beyond_int_chunks : list string :=
  ["/v/1.chunk"; "/v/9223372036854775808.chunk"].

Definition world_beyond_int : World :=
  video_world beyond_int_files beyond_int_chunks None ffmpeg_writes_manifest
    empty_db.

(** A directory without chunks. *)
Definition world_empty : World :=
  video_world [] [] None ffmpeg_writes_manifest empty_db.

(** The second chunk cannot be read to its end. *)
Definition unreadable_files : list (string * node) :=
  [("/v/0.chunk", Regular (bytes_of "AA"));
   ("/v/1.chunk", Faulty (bytes_of "B") "input/output error");
   ("/v/2.chunk", Regular (bytes_of "CC"))].

Definition three_chunks : list string :=
  ["/v/0.chunk"; "/v/1.chunk"; "/v/2.chunk"].

Definition world_unreadable : World :=
  video_world unreadable_files three_chunks None ffmpeg_writes_manifest empty_db.

(** The device has room for three more bytes. *)
Definition full_files : list (string * node) :=
  [("/v/0.chunk", Regular (bytes_of "AA"));
   ("/v/1.chunk", Regular (bytes_of "BB"));
   ("/v/2.chunk", Regular (bytes_of "CC"))].

Definition world_disk_full : World :=
  video_world full_files three_chunks (Some 3%nat) ffmpeg_writes_manifest
    empty_db.

(** The device has room for exactly the six bytes of the three chunks. *)
Definition world_exact_fit : World :=
  video_world full_files three_chunks (Some 6%nat) ffmpeg_writes_manifest
    empty_db.

(** Two chunks without a number, in file-name order. *)
Definition unnumbered_files : list (string * node) :=
  [("/v/a.chunk", Regular (bytes_of "A"));
   ("/v/b.chunk", Regular (bytes_of "B"))].

Definition unnumbered_chunks : list string := ["/v/a.chunk"; "/v/b.chunk"].

Definition world_unnumbered : World :=
  video_world unnumbered_files unnumbered_chunks None ffmpeg_writes_manifest
    empty_db.

(** Thirteen chunks in file-name order, as the enumeration gives them:
    twelve carry the number 5, the last one the number 0. *)
Definition tied_files : list (string * node) :=
  [("/v/a5.chunk", Regular (bytes_of "A"));
   ("/v/b5.chunk", Regular (bytes_of "B"));
   ("/v/c5.chunk", Regular (bytes_of "C"));
   ("/v/d5.chunk", Regular (bytes_of "D"));
   ("/v/e5.chunk", Regular (bytes_of "E"));
   ("/v/f5.chunk", Regular (bytes_of "F"));
   ("/v/g5.chunk", Regular (bytes_of "G"));
   ("/v/h5.chunk", Regular (bytes_of "H"));
   ("/v/i5.chunk", Regular (bytes_of "I"));
   ("/v/j5.chunk", Regular (bytes_of "J"));
   ("/v/k5.chunk", Regular (bytes_of "K"));
   ("/v/l5.chunk", Regular (bytes_of "L"));
   ("/v/z0.chunk", Regular (bytes_of "Z"))].

Definition tied_chunks : list string :=
  ["/v/a5.chunk"; "/v/b5.chunk"; "/v/c5.chunk"; "/v/d5.chunk";
   "/v/e5.chunk"; "/v/f5.chunk"; "/v/g5.chunk"; "/v/h5.chunk";
   "/v/i5.chunk"; "/v/j5.chunk"; "/v/k5.chunk"; "/v/l5.chunk";
   "/v/z0.chunk"].

Definition world_tied : World :=
  video_world tied_files tied_chunks None ffmpeg_writes_manifest empty_db.

(** Thirteen chunks in file-name order: one with the number 0, then
    twelve without a number. *)
Definition unnumbered_tied_files : list (string * node) :=
  [("/v/0.chunk", Regular (bytes_of "Z"));
   ("/v/a.chunk", Regular (bytes_of "A"));
   ("/v/b.chunk", Regular (bytes_of "B"));
   ("/v/c.chunk", Regular (bytes_of "C"));
   ("/v/d.chunk", Regular (bytes_of "D"));
   ("/v/e.chunk", Regular (bytes_of "E"));
   ("/v/f.chunk", Regular (bytes_of "F"));
   ("/v/g.chunk", Regular (bytes_of "G"));
   ("/v/h.chunk", Regular (bytes_of "H"));
   ("/v/i.chunk", Regular (bytes_of "I"));
   ("/v/j.chunk", Regular (bytes_of "J"));
   ("/v/k.chunk", Regular (bytes_of "K"));
   ("/v/l.chunk", Regular (bytes_of "L"))].

Definition unnumbered_tied_chunks : list string :=
  ["/v/0.chunk"; "/v/a.chunk"; "/v/b.chunk"; "/v/c.chunk"; "/v/d.chunk";
   "/v/e.chunk"; "/v/f.chunk"; "/v/g.chunk"; "/v/h.chunk"; "/v/i.chunk";
   "/v/j.chunk"; "/v/k.chunk"; "/v/l.chunk"].

Definition world_unnumbered_tied : World :=
  video_world unnumbered_tied_files unnumbered_tied_chunks None
    ffmpeg_writes_manifest empty_db.

(** The transcoder fails on the numbered chunks. *)
Definition world_bad_video : World :=
  video_world numbered_files numbered_chunks None ffmpeg_rejects_input empty_db.

(** A decoder for the samples: the empty message does not decode, any
    other message is the task of video 7 in [/v]. *)
Definition sample_Unmarshal (msg : list byte) (task : VideoTask)
  : VideoTask * option error :=
  match msg with
  | [] => (task, Some "unexpected end of JSON input")
  | _ => (mkTask 7 "/v", None)
  end.

(** A message for the sample decoder: video 7 in [/v]. *)
Definition sample_message : list byte :=
  bytes_of ("{" +:+ dquote +:+ "video_id" +:+ dquote +:+ ":7," +:+
            dquote +:+ "path" +:+ dquote +:+ ":" +:+
            dquote +:+ "/v" +:+ dquote +:+ "}").

(** A database that is down, holding the success record of video 7. *)
Definition db_down : Database :=
  mkDb [(7, "success", 1%nat)] [] [] (fun _ => Some "connection refused").

Definition world_db_down : World :=
  video_world numbered_files numbered_chunks None ffmpeg_writes_manifest db_down.

Definition task_7 : VideoTask := mkTask 7 "/v".

(** The rejected video after the merge, and after the creation of the
    output directory. *)
Definition bad_video_merged : World :=
  world_of
    (mergeChunks insertion_sort "/v" "/v/merged.mp4"
       (logged_info "Merging chunks" [("path", VString "/v")] world_bad_video))
    world_bad_video.

Definition bad_video_ready : World :=
  world_of
    (os_MkdirAll "/v/mpeg-dash"
       (logged_info "Creating mpeg-dash dir" [("path", VString "/v")]
          bad_video_merged))
    bad_video_merged.

(** The value an outcome carries, if it is not a panic. *)
Definition result_of {A} (o : Outcome A) : option A :=
  match o with
  | Returned a _ => Some a
  | Panicked _ => None
  end.

(** ** More sample worlds *)

(** Video 7 marked as processed once, and twice. *)
Definition world_marked : World :=
  world_of (MarkProcess 7 world_numbered) world_numbered.

Definition world_marked_twice : World :=
  world_of (MarkProcess 7 world_marked) world_marked.

(** The details of an error, as [logError] builds them. *)
Definition sample_details : gmap string any :=
  {[ "video_id" := AnyInt 7;
     "error" := AnyString "failed to merge chunks";
     "details" := AnyString "no space left on device";
     "time" := AnyTime 0%nat ]}.

(** A file name without a slash. *)
Definition no_separator (name : string) : Prop :=
  existsb is_separator (list_ascii_of_string name) = false.

(** A plain path element, as a directory enumeration returns them: not
    empty, without a slash, and neither [.] nor [..]. *)
Definition plain_name (name : string) : Prop :=
  name <> EmptyString /\ name <> "." /\ name <> ".." /\ no_separator name.

(** The enumeration of [/v/*.chunk] fails. *)
Definition world_bad_pattern : World :=
  mkWorld (list_to_map numbered_files) None device_full 0%nat [] empty_db
    (fun _ => ([], Some "syntax error in pattern"))
    never_denied never_denied never_denied never_denied
    ffmpeg_writes_manifest.

(** The name of the output directory is taken by a regular file. *)
Definition world_dash_taken : World :=
  video_world (numbered_files ++ [("/v/mpeg-dash", Regular [])])
    numbered_chunks None ffmpeg_writes_manifest empty_db.

(** Nothing can be removed. *)
Definition world_locked : World :=
  mkWorld (list_to_map numbered_files) None device_full 0%nat [] empty_db
    (glob_v numbered_chunks) never_denied never_denied never_denied
    (fun _ => Some "operation not permitted") ffmpeg_writes_manifest.

(** A transcoder that copies: called as
    [ffmpeg -i input -f dash manifest], it reads [input] and writes its
    bytes to [manifest]; it fails when [input] cannot be read, and does
    not start on another command line. *)
Definition ffmpeg_copies_input (args : list string) (fs : gmap string node)
  : ProcResult :=
  match args with
  | [command; i; input; f; format; manifest] =>
      if List.list_eq_dec string_dec [command; i; f; format]
           ["ffmpeg"; "-i"; "-f"; "dash"]
      then
        match fs !! input with
        | Some (Regular data) => Exited (<[manifest := Regular data]> fs) [] 0
        | _ => Exited fs (bytes_of "No such file or directory") 1
        end
      else NotStarted "exec: unknown command"
  | _ => NotStarted "exec: unknown command"
  end.

Definition world_copying : World :=
  video_world numbered_files numbered_chunks None ffmpeg_copies_input empty_db.

(** The world after the merge step of [processVideo], and after its
    directory step. *)
Definition after_merge (task : VideoTask) (w : World) : World :=
  world_of
    (mergeChunks insertion_sort (Path task)
       (filepath_Join (Path task) "merged.mp4")
       (logged_info "Merging chunks" [("path", VString (Path task))] w))
    w.

Definition after_mkdir (task : VideoTask) (w : World) : World :=
  world_of
    (os_MkdirAll (filepath_Join (Path task) "mpeg-dash")
       (logged_info "Creating mpeg-dash dir" [("path", VString (Path task))]
          (after_merge task w)))
    w.

(** * Properties *)

(** ** The ordering key *)

Example extractNumber_plain : extractNumber "/videos/7/12.chunk" = 12.
Proof. reflexivity. Qed.

Example extractNumber_first_run : extractNumber "/v/part3_of_10.chunk" = 3.
Proof. reflexivity. Qed.

Example extractNumber_none : extractNumber "/videos/7/intro.chunk" = -1.
Proof. reflexivity. Qed.

Example extractNumber_too_large :
  extractNumber "/v/9223372036854775808.chunk" = -1.
Proof. reflexivity. Qed.

Example extractNumber_largest :
  extractNumber "/v/9223372036854775807.chunk" = 9223372036854775807.
Proof. reflexivity. Qed.

Example filepath_Base_examples :
  filepath_Base "/a/b/" = "b" /\ filepath_Base "///" = "/" /\
  filepath_Base "x.chunk" = "x.chunk" /\ filepath_Base "" = ".".
Proof. repeat split; reflexivity. Qed.


Lemma is_separator_false_digit c : is_digit c = true -> is_separator c = false.
Proof.
  unfold is_digit, is_separator. intros H.
  destruct (ascii_dec c "/"%char) as [->|]; [discriminate H | reflexivity].
Qed.

Lemma leading_digits_run run post :
  all_digits run = true -> starts_without_digit post ->
  leading_digits (run +:+ post) = run.
Proof.
  unfold all_digits. induction run as [|c r IH]; simpl; intros Hd Hp.
  - destruct post as [|c p]; simpl in *; [reflexivity | now rewrite Hp].
  - apply andb_prop in Hd as [Hc Hr]. rewrite Hc. f_equal. now apply IH.
Qed.

(** The regular expression finds the run the specification describes. *)
Lemma FindString_first_run s run :
  first_digit_run s run -> regexp_digits_FindString s = run.
Proof.
  intros [pre r post Hpre Hne Hall Hpost]. unfold no_digit in Hpre.
  induction pre as [|c pre IH]; simpl in *.
  - destruct r as [|c r]; [congruence|]. simpl.
    unfold all_digits in Hall. simpl in Hall.
    apply andb_prop in Hall as [Hc Hr]. rewrite Hc. f_equal.
    now apply leading_digits_run.
  - apply andb_prop in Hpre as [Hc Hpre].
    destruct (is_digit c); [discriminate Hc|]. now apply IH.
Qed.

Lemma digit_value_nonneg c : is_digit c = true -> 0 <= digit_value c.
Proof.
  unfold is_digit, digit_value. intros H. apply andb_prop in H as [H _].
  apply Nat.leb_le in H. lia.
Qed.

Lemma decimal_value_nonneg s acc :
  all_digits s = true -> 0 <= acc -> 0 <= decimal_value acc s.
Proof.
  unfold all_digits. revert acc. induction s as [|c r IH]; simpl; intros acc H Ha.
  - exact Ha.
  - apply andb_prop in H as [Hc Hr]. apply IH; [exact Hr|].
    pose proof (digit_value_nonneg c Hc). lia.
Qed.

Lemma digit_not_sign c : is_digit c = true -> c <> "-"%char /\ c <> "+"%char.
Proof. intros H. split; intros ->; discriminate H. Qed.

(** [strconv.Atoi] on a run of digits that fits an [int]. *)
Lemma Atoi_digits run :
  run <> EmptyString -> all_digits run = true ->
  decimal_value 0 run <= maxInt ->
  strconv_Atoi run = (decimal_value 0 run, None).
Proof.
  intros Hne Hall Hmax.
  pose proof (decimal_value_nonneg run 0 Hall ltac:(lia)) as Hpos.
  destruct run as [|c r]; [congruence|].
  assert (Hc : is_digit c = true).
  { unfold all_digits in Hall. simpl in Hall. now apply andb_prop in Hall as [? _]. }
  destruct (digit_not_sign c Hc) as [Hm Hp].
  assert (Hbody : (let '(neg, body) :=
             match String c r with
             | String "-"%char r0 => (true, r0)
             | String "+"%char r0 => (false, r0)
             | _ => (false, String c r)
             end in (neg, body)) = (false, String c r)).
  { destruct c as [[] [] [] [] [] [] [] []]; try reflexivity; congruence. }
  unfold strconv_Atoi.
  destruct (match String c r with
            | String "-"%char r0 => (true, r0)
            | String "+"%char r0 => (false, r0)
            | _ => (false, String c r)
            end) as [neg body].
  injection Hbody as -> ->.
  rewrite Hall.
  assert (Hmin : (decimal_value 0 (String c r) <? minInt) = false).
  { apply Z.ltb_ge. unfold minInt, intSize. simpl Z.pow. lia. }
  assert (Hmx : (maxInt <? decimal_value 0 (String c r)) = false).
  { apply Z.ltb_ge. exact Hmax. }
  cbv zeta. rewrite Hmin, Hmx. reflexivity.
Qed.

(** Where the embedded integer fits an [int], [extractNumber] is it. *)
Lemma extractNumber_embedded fileName n :
  embedded_integer fileName n -> n <= maxInt -> extractNumber fileName = n.
Proof.
  intros (run & Hrun & ->) Hmax. unfold extractNumber.
  rewrite (FindString_first_run _ _ Hrun).
  destruct Hrun as [pre r post _ Hne Hall _].
  now rewrite (Atoi_digits r Hne Hall Hmax).
Qed.

Lemma embedded_integer_unique fileName n m :
  embedded_integer fileName n -> embedded_integer fileName m -> n = m.
Proof.
  intros (r1 & H1 & ->) (r2 & H2 & ->).
  apply FindString_first_run in H1, H2. congruence.
Qed.

(** ** Sorting *)

Lemma chunk_less_ordering : strict_weak_ordering chunk_less.
Proof.
  unfold chunk_less. split; [|split].
  - intros a. apply Z.ltb_irrefl.
  - intros a b c H1 H2. apply Z.ltb_lt in H1, H2. apply Z.ltb_lt. lia.
  - intros a b c H1 H2. apply Z.ltb_ge in H1, H2. apply Z.ltb_ge. lia.
Qed.

Lemma not_after_transitive less :
  strict_weak_ordering less -> Transitive (not_after less).
Proof. intros (_ & _ & Hn) a b c Hab Hbc. unfold not_after in *. eauto. Qed.

Lemma not_after_chunk_less a b :
  not_after chunk_less a b <-> extractNumber a <= extractNumber b.
Proof. unfold not_after, chunk_less. rewrite Z.ltb_ge. reflexivity. Qed.

Lemma StronglySorted_weaken {A} (R S : A -> A -> Prop) l :
  (forall a b, In a l -> In b l -> R a b -> S a b) ->
  StronglySorted R l -> StronglySorted S l.
Proof.
  intros HRS H. induction H as [|a l Hl IH Hall]; constructor.
  - apply IH. intros; apply HRS; simpl; auto.
  - rewrite List.Forall_forall in *. intros b Hb.
    apply HRS; simpl; auto.
Qed.

Section SortInstances.

Variable less : string -> string -> bool.

Lemma insert_stable_perm x l : Permutation (insert_stable less x l) (x :: l).
Proof.
  induction l as [|y r IH]; simpl; [reflexivity|].
  destruct (less y x); [|reflexivity].
  rewrite IH. apply perm_swap.
Qed.


Lemma HdRel_insert_stable R y x l :
  R y x -> HdRel R y l -> HdRel R y (insert_stable less x l).
Proof.
  intros Hx Hl. destruct l as [|z r]; simpl; [now constructor|].
  inversion_clear Hl. destruct (less z x); now constructor.
Qed.


Hypothesis less_ordering : strict_weak_ordering less.

Lemma less_asymmetric a b : less a b = true -> less b a = false.
Proof.
  intros Hab. destruct (less b a) eqn:Hba; [|reflexivity].
  destruct less_ordering as (Hirr & Ht & _).
  rewrite <- (Hirr a). symmetry. eauto.
Qed.

Lemma insert_stable_sorted x l :
  Sorted (not_after less) l -> Sorted (not_after less) (insert_stable less x l).
Proof.
  induction 1 as [|y r Hr IH Hhd]; simpl; [repeat constructor|].
  destruct (less y x) eqn:Hyx.
  - constructor; [exact IH|].
    apply HdRel_insert_stable; [|exact Hhd].
    unfold not_after. now apply less_asymmetric.
  - repeat constructor; assumption.
Qed.


End SortInstances.

Lemma insertion_sort_perm less l : Permutation (insertion_sort less l) l.
Proof.
  induction l as [|x l IH]; simpl; [reflexivity|].
  rewrite insert_stable_perm. now constructor.
Qed.


Lemma insertion_sort_contract : sort_contract insertion_sort.
Proof.
  split; [apply insertion_sort_perm|].
  intros less l Hless. induction l as [|x l IH]; simpl; [constructor|].
  now apply insert_stable_sorted.
Qed.


(** A sort that keeps the promise puts the chunks in ascending order of
    [extractNumber]: every file comes before the files of greater or
    equal number that follow it. *)
Lemma sorted_chunks_ascending sort chunks :
  sort_contract sort ->
  StronglySorted (fun a b => extractNumber a <= extractNumber b)
    (sort chunk_less chunks).
Proof.
  intros [_ Hsorted].
  apply StronglySorted_weaken with (R := not_after chunk_less).
  - intros a b _ _. apply not_after_chunk_less.
  - apply Sorted_StronglySorted.
    + apply not_after_transitive, chunk_less_ordering.
    + apply Hsorted, chunk_less_ordering.
Qed.

Lemma map_injective_on {A B} (f : A -> B) (l1 l2 : list A) :
  (forall a b, In a l1 -> In b l2 -> f a = f b -> a = b) ->
  map f l1 = map f l2 -> l1 = l2.
Proof.
  revert l2. induction l1 as [|a l1 IH]; intros [|b l2] Hinj Heq;
    simpl in *; try congruence.
  injection Heq as Hab Heq. f_equal.
  - apply Hinj; auto.
  - apply IH; [|exact Heq]. intros; apply Hinj; auto.
Qed.

Lemma NoDup_map_injective {A B} (f : A -> B) (l : list A) a b :
  List.NoDup (map f l) -> In a l -> In b l -> f a = f b -> a = b.
Proof.
  induction l as [|x l IH]; simpl; [tauto|].
  intros Hnd Ha Hb Hf. apply List.NoDup_cons_iff in Hnd as [Hx Hnd].
  destruct Ha as [->|Ha], Hb as [->|Hb]; auto.
  - exfalso. apply Hx. rewrite Hf. now apply in_map.
  - exfalso. apply Hx. rewrite <- Hf. now apply in_map.
Qed.

(** Two arrangements of the same files in ascending order of numbers
    that are all different are the same arrangement. *)
Lemma ascending_unique (l1 l2 : list string) :
  Permutation l1 l2 ->
  List.NoDup (map extractNumber l1) ->
  StronglySorted (fun a b => extractNumber a <= extractNumber b) l1 ->
  StronglySorted (fun a b => extractNumber a <= extractNumber b) l2 ->
  l1 = l2.
Proof.
  intros Hperm Hnd H1 H2.
  apply (map_injective_on extractNumber).
  - intros a b Ha Hb. apply (NoDup_map_injective extractNumber l1); auto.
    apply Permutation_in with l2; [now symmetry | exact Hb].
  - apply (StronglySorted_unique Z.le).
    + eapply StronglySorted_fmap; [|exact H1]. auto.
    + eapply StronglySorted_fmap; [|exact H2]. auto.
    + now apply Permutation_map.
Qed.

(** ** Copying the chunks *)

Lemma files_only_refl w : files_only w w.
Proof. now destruct w. Qed.

Lemma files_only_trans w1 w2 w3 :
  files_only w1 w2 -> files_only w2 w3 -> files_only w1 w3.
Proof.
  unfold files_only. intros H12 H23. rewrite H23, H12.
  destruct w1; reflexivity.
Qed.

Lemma files_only_db w w' : files_only w w' -> w_db w' = w_db w.
Proof. intros ->. reflexivity. Qed.

Lemma write_end_spec output d w old :
  w_fs w !! output = Some (Regular old) ->
  exists k err w',
    write_end output d w = (k, err, w') /\
    files_only w w' /\
    w_fs w' !! output = Some (Regular (old ++ take k d)) /\
    (forall p, p <> output -> w_fs w' !! p = w_fs w !! p) /\
    (err = None -> take k d = d).
Proof.
  intros Hout. unfold write_end.
  set (room := match w_space w with
               | None => length d
               | Some free => Nat.min free (length d)
               end).
  assert (Hfs : forall sp,
    w_fs (set_space sp
      (set_fs (alter (append_data (take room d)) output (w_fs w)) w)) !! output
    = Some (Regular (old ++ take room d))).
  { intros sp. simpl. rewrite lookup_alter_eq, Hout. reflexivity. }
  assert (Hother : forall sp p, p <> output ->
    w_fs (set_space sp
      (set_fs (alter (append_data (take room d)) output (w_fs w)) w)) !! p
    = w_fs w !! p).
  { intros sp p Hp. simpl. now rewrite lookup_alter_ne. }
  destruct (room <? length d)%nat eqn:Hroom;
    eexists _, _, _; (split; [reflexivity|]);
    (split; [now destruct w|]); (split; [apply Hfs|]);
    (split; [apply Hother|]); intros He; [discriminate He|].
  apply Nat.ltb_ge in Hroom. now apply take_ge.
Qed.

Lemma is_regular_frame (fs fs' : gmap string node) output l :
  (forall p, p <> output -> fs' !! p = fs !! p) -> ~ In output l ->
  Forall (is_regular fs') l -> Forall (is_regular fs) l.
Proof.
  intros Hfr Hout. rewrite !List.Forall_forall. intros H c Hc.
  destruct (H c Hc) as [d Hd]. exists d. rewrite <- Hd. symmetry.
  apply Hfr. intros ->. tauto.
Qed.

Lemma file_content_frame (fs fs' : gmap string node) output l :
  (forall p, p <> output -> fs' !! p = fs !! p) -> ~ In output l ->
  map (file_content fs') l = map (file_content fs) l.
Proof.
  intros Hfr Hout. apply map_ext_in. intros c Hc. unfold file_content.
  rewrite Hfr; [reflexivity|]. intros ->. tauto.
Qed.

Lemma copyChunks_spec output chunks : forall w old,
  ~ In output chunks ->
  w_fs w !! output = Some (Regular old) ->
  exists r w',
    copyChunks output chunks w = Returned r w' /\
    files_only w w' /\
    (forall p, p <> output -> w_fs w' !! p = w_fs w !! p) /\
    copy_result (w_fs w) chunks old r (w_fs w' !! output).
Proof.
  induction chunks as [|c rest IH]; intros w old Hnot Hout.
  - exists None, w. simpl. run. repeat split; auto using files_only_refl.
    now rewrite app_nil_r.
  - assert (Hc : c <> output) by (intros ->; apply Hnot; now left).
    assert (Hrest : ~ In output rest) by (intros H; apply Hnot; now right).
    simpl. run. unfold os_Open.
    destruct (w_deny_open w c) as [denied|] eqn:Hdeny.
    { eexists _, w. split; [reflexivity|].
      repeat split; auto using files_only_refl.
      exists [], c, rest, 0%nat. simpl. rewrite app_nil_r.
      repeat split; auto. left. eauto. }
    destruct (w_fs w !! c) as [n|] eqn:Hn.
    2:{ eexists _, w. split; [reflexivity|].
        repeat split; auto using files_only_refl.
        exists [], c, rest, 0%nat. simpl. rewrite app_nil_r.
        repeat split; auto. left. eauto. }
    unfold File_ReadFrom. rewrite Hn.
    destruct n as [d|d e|].
    + destruct (write_end_spec output d w old Hout)
        as (k & err & w1 & Hw & Hfo & Hout1 & Hoth & Hfull).
      rewrite Hw. destruct err as [e|].
      * eexists _, w1. split; [reflexivity|]. repeat split; auto.
        exists [], c, rest, k. simpl. unfold node_bytes. rewrite Hn.
        repeat split; auto. right. eauto.
      * unfold File_Close. run. rewrite (Hfull eq_refl) in Hout1.
        destruct (IH w1 (old ++ d) Hrest Hout1)
          as (r & w' & Hrun & Hfo' & Hoth' & Hres).
        exists r, w'. split; [exact Hrun|].
        split; [eauto using files_only_trans|].
        split; [intros p Hp; rewrite Hoth', Hoth; auto|].
        assert (Hcontent : file_content (w_fs w) c = d)
          by (unfold file_content; now rewrite Hn).
        destruct r as [e|]; simpl in *.
        -- destruct Hres as (copied & chunk & rest' & k' & -> & Hreg & Ho & He).
           exists (c :: copied), chunk, rest', k'. simpl.
           assert (Hnc : ~ In output copied).
           { intros H. apply Hrest. apply in_or_app. now left. }
           assert (Hnk : chunk <> output).
           { intros ->. apply Hrest. apply in_or_app. right. now left. }
           repeat split; auto.
           ++ constructor; [now exists d|].
              eapply is_regular_frame; eauto.
           ++ rewrite Ho, Hcontent.
              rewrite (file_content_frame (w_fs w) (w_fs w1) output) by auto.
              unfold node_bytes. rewrite (Hoth chunk Hnk).
              now rewrite <- !app_assoc.
        -- destruct Hres as [Hreg Ho]. split.
           ++ constructor; [now exists d|].
              eapply is_regular_frame; eauto.
           ++ rewrite Ho, Hcontent.
              rewrite (file_content_frame (w_fs w) (w_fs w1) output) by auto.
              now rewrite <- !app_assoc.
    + destruct (write_end_spec output d w old Hout)
        as (k & err & w1 & Hw & Hfo & Hout1 & Hoth & Hfull).
      rewrite Hw.
      assert (Hres : forall e', copy_result (w_fs w) (c :: rest) old
        (Some ("failed to write chunk " +:+ c +:+ " to merged file: " +:+ e'))
        (w_fs w1 !! output)).
      { intros e'. exists [], c, rest, k. simpl. unfold node_bytes. rewrite Hn.
        repeat split; auto. right. eauto. }
      destruct err as [e'|]; eexists _, w1; (split; [reflexivity|]);
        repeat split; auto; apply Hres.
    + eexists _, w. split; [reflexivity|].
      repeat split; auto using files_only_refl.
      exists [], c, rest, 0%nat. simpl. rewrite app_nil_r.
      repeat split; auto. right. eauto.
Qed.

Lemma write_end_files_only output d w k err w' :
  write_end output d w = (k, err, w') -> files_only w w'.
Proof.
  unfold write_end. intros H.
  destruct (_ <? _)%nat; injection H as _ _ <-; now destruct w.
Qed.

(** The copy loop always returns, and touches nothing but files. *)
Lemma copyChunks_total output chunks : forall w,
  exists r w', copyChunks output chunks w = Returned r w' /\ files_only w w'.
Proof.
  induction chunks as [|c rest IH]; intros w; simpl; run.
  - eauto using files_only_refl.
  - unfold os_Open.
    destruct (w_deny_open w c) as [denied|]; [eauto using files_only_refl|].
    destruct (w_fs w !! c) as [n|] eqn:Hn; [|eauto using files_only_refl].
    unfold File_ReadFrom. rewrite Hn.
    destruct n as [d|d e|]; [| |eauto using files_only_refl].
    + destruct (write_end output d w) as [[k err] w1] eqn:Hw.
      apply write_end_files_only in Hw.
      destruct err as [e|]; [eauto|].
      unfold File_Close. run.
      destruct (IH w1) as (r & w' & Hrun & Hfo).
      eauto using files_only_trans.
    + destruct (write_end output d w) as [[k err] w1] eqn:Hw.
      apply write_end_files_only in Hw.
      destruct err as [e'|]; eauto.
Qed.

Lemma copy_result_frame (fs fs' : gmap string node) output chunks old r out :
  (forall p, p <> output -> fs' !! p = fs !! p) -> ~ In output chunks ->
  copy_result fs' chunks old r out -> copy_result fs chunks old r out.
Proof.
  intros Hfr Hnot. destruct r as [e|]; simpl.
  - intros (copied & chunk & rest & k & -> & Hreg & Hout & He).
    assert (Hnc : ~ In output copied).
    { intros H. apply Hnot. apply in_or_app. now left. }
    assert (Hnk : chunk <> output).
    { intros ->. apply Hnot. apply in_or_app. right. now left. }
    exists copied, chunk, rest, k. repeat split; auto.
    + eapply is_regular_frame; eauto.
    + rewrite Hout. unfold node_bytes. rewrite (Hfr chunk Hnk).
      now rewrite (file_content_frame fs fs' output).
  - intros [Hreg Hout]. split.
    + eapply is_regular_frame; eauto.
    + rewrite Hout. now rewrite (file_content_frame fs fs' output).
Qed.

Section Merge.

Variable sort_Slice : (string -> string -> bool) -> list string -> list string.

(** [mergeChunks] always returns, and touches nothing but files. *)
Lemma mergeChunks_total inputDir outputFile w :
  exists r w',
    mergeChunks sort_Slice inputDir outputFile w = Returned r w' /\
    files_only w w'.
Proof.
  unfold mergeChunks, filepath_Glob. run.
  destruct (w_glob w _) as [chunks [e|]]; [eauto using files_only_refl|].
  unfold os_Create.
  destruct (w_deny_create w outputFile) as [e|];
    [eauto using files_only_refl|].
  set (w1 := set_fs (<[outputFile:=Regular []]> (w_fs w)) w).
  assert (H1 : files_only w w1) by (now destruct w).
  assert (Hgo : exists r w',
    (match copyChunks outputFile (sort_Slice chunk_less chunks) w1 with
     | Returned a w' =>
         match File_Close outputFile w' with
         | Returned _ w'0 => Returned a w'0
         | Panicked r => Panicked r
         end
     | Panicked r => Panicked r
     end) = Returned r w' /\ files_only w w').
  { destruct (copyChunks_total outputFile (sort_Slice chunk_less chunks) w1)
      as (r & w' & -> & Hfo).
    unfold File_Close. run. eauto using files_only_trans. }
  destruct (w_fs w !! outputFile) as [[| |]|]; eauto using files_only_refl.
Qed.

(** [mergeChunks] when the enumeration succeeds and the output file can
    be created: the chunks are copied in sorted order, and the result of
    the copy loop is the result of the merge. Of the sort, only that it
    rearranges these chunks is used. *)
Lemma mergeChunks_sorted_copy inputDir outputFile w chunks :
  Permutation (sort_Slice chunk_less chunks) chunks ->
  w_glob w (filepath_Join inputDir "*.chunk") = (chunks, None) ->
  w_deny_create w outputFile = None ->
  w_fs w !! outputFile <> Some Directory ->
  ~ In outputFile chunks ->
  exists r w',
    mergeChunks sort_Slice inputDir outputFile w = Returned r w' /\
    files_only w w' /\
    (forall p, p <> outputFile -> w_fs w' !! p = w_fs w !! p) /\
    copy_result (w_fs w) (sort_Slice chunk_less chunks) [] r
      (w_fs w' !! outputFile).
Proof.
  intros Hperm Hglob Hdeny Hdir Hnot.
  unfold mergeChunks, filepath_Glob. run. rewrite Hglob.
  unfold os_Create. rewrite Hdeny.
  set (w1 := set_fs (<[outputFile:=Regular []]> (w_fs w)) w).
  assert (H1 : files_only w w1) by (now destruct w).
  assert (Hout1 : w_fs w1 !! outputFile = Some (Regular [])).
  { simpl. apply lookup_insert_eq. }
  assert (Hoth1 : forall p, p <> outputFile -> w_fs w1 !! p = w_fs w !! p).
  { intros p Hp. simpl. now apply lookup_insert_ne. }
  assert (Hnot' : ~ In outputFile (sort_Slice chunk_less chunks)).
  { intros H. apply Hnot. eapply Permutation_in; [exact Hperm | exact H]. }
  destruct (copyChunks_spec outputFile _ w1 [] Hnot' Hout1)
    as (r & w' & Hrun & Hfo & Hoth & Hres).
  assert (Hgo : exists r w',
    (match copyChunks outputFile (sort_Slice chunk_less chunks) w1 with
     | Returned a w' =>
         match File_Close outputFile w' with
         | Returned _ w'0 => Returned a w'0
         | Panicked r => Panicked r
         end
     | Panicked r => Panicked r
     end) = Returned r w' /\ files_only w w' /\
    (forall p, p <> outputFile -> w_fs w' !! p = w_fs w !! p) /\
    copy_result (w_fs w) (sort_Slice chunk_less chunks) [] r
      (w_fs w' !! outputFile)).
  { exists r, w'. rewrite Hrun. unfold File_Close. run.
    split; [reflexivity|]. split; [eauto using files_only_trans|].
    split; [intros p Hp; rewrite Hoth, Hoth1; auto|].
    eapply copy_result_frame; eauto. }
  destruct (w_fs w !! outputFile) as [[| |]|]; auto. congruence.
Qed.

Hypothesis sort_ok : sort_contract sort_Slice.

Lemma mergeChunks_spec inputDir outputFile w chunks :
  w_glob w (filepath_Join inputDir "*.chunk") = (chunks, None) ->
  w_deny_create w outputFile = None ->
  w_fs w !! outputFile <> Some Directory ->
  ~ In outputFile chunks ->
  exists r w',
    mergeChunks sort_Slice inputDir outputFile w = Returned r w' /\
    files_only w w' /\
    (forall p, p <> outputFile -> w_fs w' !! p = w_fs w !! p) /\
    copy_result (w_fs w) (sort_Slice chunk_less chunks) [] r
      (w_fs w' !! outputFile).
Proof. apply mergeChunks_sorted_copy, sort_ok. Qed.

End Merge.

(** ** Merging: when it succeeds *)

Lemma write_end_room output d w :
  has_room w (length d) ->
  write_end output d w =
    (length d, None,
     set_space ((fun free => (free - length d)%nat) <$> w_space w)
       (set_fs (alter (append_data d) output (w_fs w)) w)).
Proof.
  unfold has_room, write_end. intros Hroom.
  assert (Hmin : match w_space w with
                 | None => length d
                 | Some free => Nat.min free (length d)
                 end = length d).
  { destruct (w_space w) as [free|]; [lia | reflexivity]. }
  rewrite Hmin. cbv zeta. rewrite Nat.ltb_irrefl, firstn_all. reflexivity.
Qed.

Lemma total_size_cons fs c rest d :
  fs !! c = Some (Regular d) ->
  total_size fs (c :: rest) = (length d + total_size fs rest)%nat.
Proof.
  intros Hc. unfold total_size. cbn [map concat].
  rewrite length_app. unfold file_content at 1. now rewrite Hc.
Qed.

Lemma total_size_frame (fs fs' : gmap string node) output l :
  (forall p, p <> output -> fs' !! p = fs !! p) -> ~ In output l ->
  total_size fs' l = total_size fs l.
Proof.
  intros Hfr Hout. unfold total_size.
  now rewrite (file_content_frame fs fs' output).
Qed.

Lemma total_size_Permutation fs l l' :
  Permutation l l' -> total_size fs l = total_size fs l'.
Proof.
  unfold total_size. induction 1 as [|x l l' _ IH|x y l|l l' l'' _ IH1 _ IH2];
    cbn [map concat]; rewrite ?length_app in *; lia.
Qed.

Lemma copyChunks_succeeds output chunks : forall w,
  has_room w (total_size (w_fs w) chunks) ->
  may_open w chunks ->
  Forall (is_regular (w_fs w)) chunks ->
  ~ In output chunks ->
  exists w', copyChunks output chunks w = Returned None w'.
Proof.
  induction chunks as [|c rest IH]; intros w Hroom Hopen Hreg Hnot;
    cbn [copyChunks]; run.
  - eauto.
  - assert (Hc : c <> output) by (intros ->; apply Hnot; now left).
    assert (Hrest : ~ In output rest) by (intros H; apply Hnot; now right).
    inversion_clear Hreg as [|? ? [d Hd] Hreg'].
    inversion_clear Hopen as [|? ? Hopen_c Hopen'].
    rewrite (total_size_cons _ _ _ _ Hd) in Hroom.
    unfold os_Open. rewrite Hopen_c, Hd. unfold File_ReadFrom. rewrite Hd.
    rewrite (write_end_room output d w)
      by (unfold has_room in *; destruct (w_space w); [lia | exact I]).
    unfold File_Close. run.
    assert (Hfr : forall p, p <> output ->
              alter (append_data d) output (w_fs w) !! p = w_fs w !! p).
    { intros p Hp. now apply lookup_alter_ne. }
    apply IH.
    + unfold has_room in *. simpl.
      rewrite (total_size_frame (w_fs w) _ output) by auto.
      destruct (w_space w); simpl; [lia | exact I].
    + exact Hopen'.
    + apply (is_regular_frame _ (w_fs w) output); [|exact Hrest|exact Hreg'].
      intros p Hp. symmetry. simpl. now apply Hfr.
    + exact Hrest.
Qed.

(** With regular chunks that may be opened, room on the device and an
    output file that can be created, the merge succeeds. *)
Lemma mergeChunks_succeeds sort inputDir outputFile w chunks :
  sort_contract sort ->
  w_glob w (filepath_Join inputDir "*.chunk") = (chunks, None) ->
  w_deny_create w outputFile = None ->
  w_fs w !! outputFile <> Some Directory ->
  has_room w (total_size (w_fs w) chunks) ->
  may_open w chunks ->
  Forall (is_regular (w_fs w)) chunks ->
  ~ In outputFile chunks ->
  exists w', mergeChunks sort inputDir outputFile w = Returned None w'.
Proof.
  intros Hsort Hglob Hdeny Hdir Hroom Hopen Hreg Hnot.
  unfold mergeChunks, filepath_Glob. run. rewrite Hglob.
  unfold os_Create. rewrite Hdeny.
  assert (Hperm : Permutation (sort chunk_less chunks) chunks) by apply Hsort.
  assert (Hnot' : ~ In outputFile (sort chunk_less chunks)).
  { intros H. apply Hnot. eapply Permutation_in; [exact Hperm | exact H]. }
  assert (Hfr : forall p, p <> outputFile ->
            <[outputFile:=Regular []]> (w_fs w) !! p = w_fs w !! p).
  { intros p Hp. now apply lookup_insert_ne. }
  destruct (copyChunks_succeeds outputFile (sort chunk_less chunks)
              (set_fs (<[outputFile:=Regular []]> (w_fs w)) w))
    as [w' Hrun]; [| | |exact Hnot'|].
  - unfold has_room in *. simpl.
    rewrite (total_size_frame (w_fs w) _ outputFile) by auto.
    now rewrite (total_size_Permutation _ _ _ Hperm).
  - unfold may_open in *. simpl. rewrite List.Forall_forall in *.
    intros c Hc. apply Hopen. eapply Permutation_in; [exact Hperm | exact Hc].
  - rewrite List.Forall_forall in *. intros c Hc.
    destruct (Hreg c) as [d Hd];
      [eapply Permutation_in; [exact Hperm | exact Hc]|].
    exists d. simpl. rewrite Hfr; [exact Hd|].
    intros ->. contradiction.
  - assert (Hgo : exists w',
      (match copyChunks outputFile (sort chunk_less chunks)
               (set_fs (<[outputFile:=Regular []]> (w_fs w)) w) with
       | Returned a w' =>
           match File_Close outputFile w' with
           | Returned _ w'0 => Returned a w'0
           | Panicked r => Panicked r
           end
       | Panicked r => Panicked r
       end) = Returned None w').
    { rewrite Hrun. unfold File_Close. run. eauto. }
    destruct (w_fs w !! outputFile) as [[| |]|]; auto. congruence.
Qed.

(** ** Merging: order and content *)

Lemma mergeChunks_success_created sort inputDir outputFile w w' chunks :
  w_glob w (filepath_Join inputDir "*.chunk") = (chunks, None) ->
  mergeChunks sort inputDir outputFile w = Returned None w' ->
  w_deny_create w outputFile = None /\ w_fs w !! outputFile <> Some Directory.
Proof.
  intros Hglob. unfold mergeChunks, filepath_Glob. run. rewrite Hglob.
  unfold os_Create. destruct (w_deny_create w outputFile) as [e|].
  - discriminate.
  - intros H. split; [reflexivity|]. intros Hd. rewrite Hd in H. discriminate.
Qed.

(** C1, as amended: for chunk files whose base names embed a decimal
    integer that an [int] can hold (the output file not being one of
    them), a successful merge leaves an artifact that is the
    concatenation of the chunks' contents along an ordering of the
    enumerated chunks -- each one once -- that ascends in the first
    maximal run of decimal digits of the base name. When the numbers
    are all different there is one such ordering, so the artifact does
    not depend on the order of the enumeration. *)
Theorem mergeChunks_concatenates_in_number_order
  (sort_Slice : (string -> string -> bool) -> list string -> list string)
  (inputDir outputFile : string) (chunks : list string) (w w' : World) :
  sort_contract sort_Slice ->
  w_glob w (filepath_Join inputDir "*.chunk") = (chunks, None) ->
  ~ In outputFile chunks ->
  (forall c, In c chunks -> exists n, embedded_integer c n /\ n <= maxInt) ->
  mergeChunks sort_Slice inputDir outputFile w = Returned None w' ->
  exists order,
    Permutation order chunks /\
    StronglySorted embedded_le order /\
    Forall (is_regular (w_fs w)) order /\
    w_fs w' !! outputFile =
      Some (Regular (concat (map (file_content (w_fs w)) order))) /\
    (List.NoDup (map extractNumber chunks) ->
     forall order', Permutation order' chunks ->
                    StronglySorted embedded_le order' -> order' = order).
Proof.
  intros Hsort Hglob Hnot Hemb Hrun.
  destruct (mergeChunks_success_created _ _ _ _ _ _ Hglob Hrun) as [Hdeny Hdir].
  destruct (mergeChunks_spec sort_Slice Hsort inputDir outputFile w chunks
              Hglob Hdeny Hdir Hnot) as (r & w1 & Hrun1 & _ & _ & Hres).
  rewrite Hrun in Hrun1. injection Hrun1 as <- <-.
  destruct Hres as [Hreg Hout].
  assert (Hkey : forall c n, In c chunks ->
                 embedded_integer c n -> extractNumber c = n).
  { intros c n Hc Hn. apply extractNumber_embedded; [exact Hn|].
    destruct (Hemb c Hc) as (m & Hm & Hmax).
    now rewrite (embedded_integer_unique c n m Hn Hm). }
  assert (Hperm : Permutation (sort_Slice chunk_less chunks) chunks)
    by apply Hsort.
  exists (sort_Slice chunk_less chunks).
  split; [exact Hperm|].
  split; [|split; [exact Hreg | split; [exact Hout|]]].
  - apply StronglySorted_weaken
      with (R := fun a b => extractNumber a <= extractNumber b);
      [|now apply sorted_chunks_ascending].
    intros a b Ha Hb Hle na nb Hna Hnb.
    rewrite <- (Hkey a na), <- (Hkey b nb); eauto using Permutation_in.
  - intros Hnd order' Hperm' Hsorted'. apply ascending_unique.
    + now rewrite Hperm.
    + eapply Permutation_NoDup; [|exact Hnd].
      apply Permutation_map. now symmetry.
    + apply StronglySorted_weaken with (R := embedded_le); [|exact Hsorted'].
      intros a b Ha Hb Hle.
      destruct (Hemb a) as (na & Hna & _); [eauto using Permutation_in|].
      destruct (Hemb b) as (nb & Hnb & _); [eauto using Permutation_in|].
      rewrite (Hkey a na), (Hkey b nb); eauto using Permutation_in.
    + now apply sorted_chunks_ascending.
Qed.

Lemma embedded_integer_split fileName pre run post :
  filepath_Base fileName = pre +:+ run +:+ post ->
  no_digit pre -> run <> EmptyString -> all_digits run = true ->
  starts_without_digit post ->
  embedded_integer fileName (decimal_value 0 run).
Proof.
  intros Hb Hpre Hne Hall Hpost. exists run. split; [|reflexivity].
  rewrite Hb. now constructor.
Qed.

Ltac embedded pre run post :=
  apply (embedded_integer_split _ pre run post);
  [reflexivity | reflexivity | discriminate | reflexivity | reflexivity].

Lemma mergeChunks_numbered_witness :
  exists order,
    Permutation order numbered_chunks /\
    StronglySorted embedded_le order /\
    Forall (is_regular (w_fs world_numbered)) order /\
    w_fs (merged_world insertion_sort "/v" "/v/merged.mp4" world_numbered)
      !! "/v/merged.mp4" =
      Some (Regular (concat (map (file_content (w_fs world_numbered)) order)))
    /\
    (List.NoDup (map extractNumber numbered_chunks) ->
     forall order', Permutation order' numbered_chunks ->
                    StronglySorted embedded_le order' -> order' = order).
Proof.
  apply (mergeChunks_concatenates_in_number_order insertion_sort
           "/v" "/v/merged.mp4" numbered_chunks world_numbered).
  - apply insertion_sort_contract.
  - reflexivity.
  - intros [H|[H|[H|[]]]]; discriminate H.
  - intros c [<-|[<-|[<-|[]]]].
    + exists 2. split; [embedded "" "2" ".chunk" | now vm_compute].
    + exists 0. split; [embedded "" "0" ".chunk" | now vm_compute].
    + exists 1. split; [embedded "" "1" ".chunk" | now vm_compute].
  - vm_compute. reflexivity.
Defined.

(** The sample of the ordering property: chunks 2, 0 and 1 holding B, A
    and C merge to A, C, B -- the contents in the order 0, 1, 2. *)
Example merge_numbered_chunks :
  merge_outcome insertion_sort "/v" "/v/merged.mp4" world_numbered =
    Some (None, Some (Regular (bytes_of "ACB"))).
Proof. vm_compute. reflexivity. Qed.

(** C1 as stated fails where an embedded integer does not fit an [int]:
    [strconv.Atoi] reports a range error, [extractNumber] answers -1, and
    the chunk numbered 2^63 is merged before the chunk numbered 1. *)
Lemma number_beyond_int_sorts_first :
  embedded_integer "/v/1.chunk" 1 /\
  embedded_integer "/v/9223372036854775808.chunk" 9223372036854775808 /\
  merge_outcome insertion_sort "/v" "/v/merged.mp4" world_beyond_int =
    Some (None, Some (Regular (bytes_of "BA"))) /\
  ~ (exists order,
       Permutation order beyond_int_chunks /\
       StronglySorted embedded_le order /\
       Some (Regular (bytes_of "BA")) =
         Some (Regular (concat (map (file_content (w_fs world_beyond_int))
                                  order)))).
Proof.
  assert (H1 : embedded_integer "/v/1.chunk" 1)
    by (embedded "" "1" ".chunk").
  assert (H2 : embedded_integer "/v/9223372036854775808.chunk"
                 9223372036854775808)
    by (embedded "" "9223372036854775808" ".chunk").
  split; [exact H1|]. split; [exact H2|].
  split; [vm_compute; reflexivity|].
  intros (order & Hperm & Hsorted & Hbytes).
  apply Permutation_sym, Permutation_length_2_inv in Hperm as [-> | ->].
  - vm_compute in Hbytes. discriminate Hbytes.
  - inversion_clear Hsorted as [|? ? _ Hall].
    inversion_clear Hall as [|? ? Hle _].
    specialize (Hle _ _ H2 H1). lia.
Qed.

(** ** Merging: the empty directory *)

(** C3, as amended: where the enumeration of chunk files is empty, the
    merge does not fail: if the output file can be created, it is
    created empty and the merge reports success. *)
Theorem mergeChunks_empty_enumeration_succeeds
  (sort_Slice : (string -> string -> bool) -> list string -> list string)
  (inputDir outputFile : string) (w : World) :
  sort_contract sort_Slice ->
  w_glob w (filepath_Join inputDir "*.chunk") = ([], None) ->
  w_deny_create w outputFile = None ->
  w_fs w !! outputFile <> Some Directory ->
  exists w',
    mergeChunks sort_Slice inputDir outputFile w = Returned None w' /\
    w_fs w' !! outputFile = Some (Regular []).
Proof.
  intros Hsort Hglob Hdeny Hdir.
  destruct (mergeChunks_spec sort_Slice Hsort inputDir outputFile w []
              Hglob Hdeny Hdir) as (r & w' & Hrun & _ & _ & Hres); [tauto|].
  assert (Hnil : sort_Slice chunk_less [] = []).
  { apply Permutation_nil. symmetry. apply Hsort. }
  rewrite Hnil in Hres. destruct r as [e|]; simpl in Hres.
  - destruct Hres as (copied & chunk & rest & k & Heq & _).
    now destruct copied.
  - destruct Hres as [_ Hout]. eauto.
Qed.

Lemma mergeChunks_empty_witness :
  exists w',
    mergeChunks insertion_sort "/v" "/v/merged.mp4" world_empty =
      Returned None w' /\
    w_fs w' !! "/v/merged.mp4" = Some (Regular []).
Proof.
  apply (mergeChunks_empty_enumeration_succeeds insertion_sort
           "/v" "/v/merged.mp4" world_empty).
  - apply insertion_sort_contract.
  - reflexivity.
  - reflexivity.
  - vm_compute. discriminate.
Defined.

(** C3 as stated fails: in a directory without chunks the merge returns
    no error, and the output file exists afterwards, empty. *)
Lemma empty_directory_merge_succeeds :
  w_glob world_empty (filepath_Join "/v" "*.chunk") = ([], None) /\
  merge_outcome insertion_sort "/v" "/v/merged.mp4" world_empty =
    Some (None, Some (Regular [])).
Proof. split; vm_compute; reflexivity. Qed.

(** ** Merging: failures during the copy *)

(** C4, as amended: when opening, reading or writing fails during the
    copy, the merge stops with an error that names the failure, and the
    output file stays on disk: it holds the chunks copied so far and the
    bytes of the failing chunk written before the error. Nothing removes
    it. *)
Theorem mergeChunks_failed_copy_keeps_artifact
  (sort_Slice : (string -> string -> bool) -> list string -> list string)
  (inputDir outputFile : string) (chunks : list string) (w w' : World)
  (e : error) :
  sort_contract sort_Slice ->
  w_glob w (filepath_Join inputDir "*.chunk") = (chunks, None) ->
  w_deny_create w outputFile = None ->
  w_fs w !! outputFile <> Some Directory ->
  ~ In outputFile chunks ->
  mergeChunks sort_Slice inputDir outputFile w = Returned (Some e) w' ->
  exists (copied : list string) (chunk : string) (rest : list string) (k : nat),
    sort_Slice chunk_less chunks = copied ++ chunk :: rest /\
    Forall (is_regular (w_fs w)) copied /\
    w_fs w' !! outputFile =
      Some (Regular (concat (map (file_content (w_fs w)) copied)
                     ++ take k (node_bytes (w_fs w) chunk))) /\
    ((exists cause, e = "failed to open chunk: " +:+ cause) \/
     (exists cause, e = "failed to write chunk " +:+ chunk +:+
                        " to merged file: " +:+ cause)).
Proof.
  intros Hsort Hglob Hdeny Hdir Hnot Hrun.
  destruct (mergeChunks_spec sort_Slice Hsort inputDir outputFile w chunks
              Hglob Hdeny Hdir Hnot) as (r & w1 & Hrun1 & _ & _ & Hres).
  rewrite Hrun in Hrun1. injection Hrun1 as <- <-.
  exact Hres.
Qed.

Lemma mergeChunks_disk_full_witness :
  exists (copied : list string) (chunk : string) (rest : list string) (k : nat),
    insertion_sort chunk_less three_chunks = copied ++ chunk :: rest /\
    Forall (is_regular (w_fs world_disk_full)) copied /\
    w_fs (merged_world insertion_sort "/v" "/v/merged.mp4" world_disk_full)
      !! "/v/merged.mp4" =
      Some (Regular (concat (map (file_content (w_fs world_disk_full)) copied)
                     ++ take k (node_bytes (w_fs world_disk_full) chunk))) /\
    ((exists cause, "failed to write chunk /v/1.chunk to merged file: " +:+
                    "write /v/merged.mp4: copy_file_range: no space left on device"
                    = "failed to open chunk: " +:+ cause) \/
     (exists cause, "failed to write chunk /v/1.chunk to merged file: " +:+
                    "write /v/merged.mp4: copy_file_range: no space left on device"
                    = "failed to write chunk " +:+ chunk +:+
                      " to merged file: " +:+ cause)).
Proof.
  apply (mergeChunks_failed_copy_keeps_artifact insertion_sort
           "/v" "/v/merged.mp4" three_chunks world_disk_full).
  - apply insertion_sort_contract.
  - reflexivity.
  - reflexivity.
  - vm_compute. discriminate.
  - intros [H|[H|[H|[]]]]; discriminate H.
  - vm_compute. reflexivity.
Defined.

(** C4 as stated fails: after a write failure (the device fills up in
    the second chunk) and after a read failure (the second chunk cannot
    be read to its end) the merge returns an error and the truncated
    output file is still there. *)
Lemma failed_merge_leaves_truncated_artifact :
  merge_outcome insertion_sort "/v" "/v/merged.mp4" world_disk_full =
    Some (Some ("failed to write chunk /v/1.chunk to merged file: " +:+
                "write /v/merged.mp4: copy_file_range: no space left on device"),
          Some (Regular (bytes_of "AAB"))) /\
  merge_outcome insertion_sort "/v" "/v/merged.mp4" world_unreadable =
    Some (Some ("failed to write chunk /v/1.chunk to merged file: " +:+
                "read /v/1.chunk: input/output error"),
          Some (Regular (bytes_of "AAB"))).
Proof. split; vm_compute; reflexivity. Qed.

(** ** Sorting: ties

    Up to twelve elements [sort.Slice] is [insertionSort_func] on the
    whole slice. Read on lists, its inner loop is [sift_left] and the
    sort is [insertion_from_left]: an element only passes elements it is
    less than, so equal elements never pass each other. *)

Section InsertionSort.

Context {A : Type} (less : A -> A -> bool).

Lemma Less_adjacent (p : list A) y x rest :
  sort.Less less (p ++ y :: x :: rest) (S (length p)) (length p) = less x y.
Proof.
  unfold sort.Less.
  rewrite (lookup_app_r p _ (S (length p))) by lia.
  rewrite (lookup_app_r p _ (length p)) by lia.
  replace (S (length p) - length p)%nat with 1%nat by lia.
  rewrite Nat.sub_diag. reflexivity.
Qed.

Lemma Swap_adjacent (p : list A) y x rest :
  sort.Swap (p ++ y :: x :: rest) (S (length p)) (length p)
  = p ++ x :: y :: rest.
Proof.
  unfold sort.Swap.
  rewrite (lookup_app_r p _ (S (length p))) by lia.
  rewrite (lookup_app_r p _ (length p)) by lia.
  replace (S (length p) - length p)%nat with 1%nat by lia.
  rewrite Nat.sub_diag. cbn [lookup list_lookup].
  rewrite (insert_app_r_alt p _ (length p)) by lia.
  rewrite Nat.sub_diag. cbn [insert list_insert].
  rewrite (insert_app_r_alt p _ (S (length p))) by lia.
  replace (S (length p) - length p)%nat with 1%nat by lia.
  reflexivity.
Qed.

Lemma sift_left_length x (q : list A) :
  length (sift_left less x q) = S (length q).
Proof.
  induction q as [|y q IH]; [reflexivity|]. simpl.
  destruct (less x y); simpl; [now rewrite IH | reflexivity].
Qed.

Lemma insertion_shift_step (p : list A) y x rest :
  sort.insertion_shift less 0 (S (length p)) (p ++ y :: x :: rest)
  = if less x y then sort.insertion_shift less 0 (length p) (p ++ x :: y :: rest)
    else p ++ y :: x :: rest.
Proof.
  cbn [sort.insertion_shift]. now rewrite Less_adjacent, Swap_adjacent.
Qed.

Lemma insertion_shift_spec (q : list A) : forall x rest,
  sort.insertion_shift less 0 (length q) (rev q ++ x :: rest)
  = rev (sift_left less x q) ++ rest.
Proof.
  induction q as [|y q IH]; intros x rest; [reflexivity|].
  cbn [length rev sift_left]. rewrite <- app_assoc. cbn [app].
  rewrite <- (length_rev q), insertion_shift_step, length_rev.
  destruct (less x y).
  - rewrite IH. cbn [rev]. now rewrite <- app_assoc.
  - cbn [rev]. now rewrite <- !app_assoc.
Qed.

Lemma insertion_turns_spec (rest : list A) : forall q,
  fold_left (fun data i => sort.insertion_shift less 0 i data)
    (seq (length q) (length rest)) (rev q ++ rest)
  = rev (fold_left (fun q x => sift_left less x q) rest q).
Proof.
  induction rest as [|x rest IH]; intros q.
  - simpl. now rewrite app_nil_r.
  - cbn [length seq fold_left]. rewrite insertion_shift_spec.
    rewrite <- (sift_left_length x q). apply IH.
Qed.

Lemma insertionSort_func_spec (data : list A) :
  sort.insertionSort_func less data 0 (length data)
  = insertion_from_left less data.
Proof.
  unfold sort.insertionSort_func, insertion_from_left.
  destruct data as [|x rest]; [reflexivity|].
  cbn [length fold_left sift_left].
  replace (S (length rest) - 1)%nat with (length rest) by lia.
  apply (insertion_turns_spec rest [x]).
Qed.

(** Up to twelve elements [sort.Slice] is the insertion sort. *)
Lemma Slice_insertion (x : list A) :
  (length x <= 12)%nat -> sort.Slice less x = insertion_from_left less x.
Proof.
  intros Hlen. unfold sort.Slice. cbn [sort.pdqsort_func].
  rewrite Nat.sub_0_r.
  destruct (Nat.leb_spec (length x) 12) as [_|H]; [|lia].
  apply insertionSort_func_spec.
Qed.

Lemma sift_left_Permutation x (q : list A) :
  Permutation (sift_left less x q) (x :: q).
Proof.
  induction q as [|y q IH]; [reflexivity|]. simpl.
  destruct (less x y); [|reflexivity].
  rewrite IH. apply perm_swap.
Qed.

Lemma insertion_from_left_Permutation (l : list A) :
  Permutation (insertion_from_left less l) l.
Proof.
  unfold insertion_from_left. rewrite <- Permutation_rev.
  assert (H : forall q, Permutation
            (fold_left (fun q x => sift_left less x q) l q) (q ++ l)).
  { induction l as [|x l IH]; intros q; simpl.
    - now rewrite app_nil_r.
    - rewrite IH, sift_left_Permutation. apply Permutation_middle. }
  apply (H []).
Qed.

End InsertionSort.

(** Insertion from the left into file names ordered by their keys. *)

Lemma sift_left_descending x q :
  StronglySorted (fun a b => extractNumber b <= extractNumber a) q ->
  StronglySorted (fun a b => extractNumber b <= extractNumber a)
    (sift_left chunk_less x q).
Proof.
  induction 1 as [|y q Hq IH Hy]; [repeat constructor|].
  cbn [sift_left]. unfold chunk_less at 1.
  destruct (extractNumber x <? extractNumber y) eqn:Hlt.
  - apply Z.ltb_lt in Hlt. constructor; [exact IH|].
    rewrite List.Forall_forall in *. intros c Hc.
    apply (Permutation_in _ (sift_left_Permutation chunk_less x q)) in Hc.
    destruct Hc as [<- | Hc]; [lia | auto].
  - apply Z.ltb_ge in Hlt.
    constructor; [now constructor|].
    constructor; [exact Hlt|].
    rewrite List.Forall_forall in *. intros c Hc.
    specialize (Hy c Hc). lia.
Qed.

Lemma descending_rev (q : list string) :
  StronglySorted (fun a b => extractNumber b <= extractNumber a) q ->
  StronglySorted (fun a b => extractNumber a <= extractNumber b) (rev q).
Proof.
  induction 1 as [|y q Hq IH Hy]; [constructor|].
  cbn [rev]. apply StronglySorted_app_2; [|exact IH | repeat constructor].
  intros a b Ha Hb. apply list_elem_of_singleton in Hb as ->.
  apply list_elem_of_In, in_rev in Ha.
  rewrite List.Forall_forall in Hy. now apply Hy.
Qed.

Lemma insertion_from_left_ascending l :
  StronglySorted (fun a b => extractNumber a <= extractNumber b)
    (insertion_from_left chunk_less l).
Proof.
  unfold insertion_from_left. apply descending_rev.
  assert (H : forall q,
    StronglySorted (fun a b => extractNumber b <= extractNumber a) q ->
    StronglySorted (fun a b => extractNumber b <= extractNumber a)
      (fold_left (fun q x => sift_left chunk_less x q) l q)).
  { induction l as [|x l IH]; intros q Hq; [exact Hq|].
    simpl. apply IH. now apply sift_left_descending. }
  apply H. constructor.
Qed.

Lemma sift_left_keeps_ties k x q :
  filter (fun c => extractNumber c = k) (rev (sift_left chunk_less x q))
  = filter (fun c => extractNumber c = k) (rev q ++ [x]).
Proof.
  induction q as [|y q IH]; [reflexivity|].
  cbn [sift_left]. unfold chunk_less at 1.
  destruct (extractNumber x <? extractNumber y) eqn:Hlt; [|reflexivity].
  apply Z.ltb_lt in Hlt. cbn [rev].
  rewrite !filter_app, IH, !filter_app, <- !app_assoc. f_equal.
  rewrite !filter_cons, !filter_nil.
  repeat case_decide; try reflexivity; lia.
Qed.

Lemma insertion_from_left_keeps_ties k l :
  filter (fun c => extractNumber c = k) (insertion_from_left chunk_less l)
  = filter (fun c => extractNumber c = k) l.
Proof.
  unfold insertion_from_left.
  assert (H : forall q,
    filter (fun c => extractNumber c = k)
      (rev (fold_left (fun q x => sift_left chunk_less x q) l q))
    = filter (fun c => extractNumber c = k) (rev q ++ l)).
  { induction l as [|x l IH]; intros q.
    - simpl. now rewrite app_nil_r.
    - simpl. rewrite IH, filter_app, sift_left_keeps_ties, <- filter_app.
      now rewrite <- app_assoc. }
  apply (H []).
Qed.

(** What [sort.Slice] does to at most twelve file names: each is kept
    once, the keys ascend, and names with equal keys keep their order. *)
Lemma Slice_stable_up_to_twelve (chunks : list string) :
  (length chunks <= 12)%nat ->
  Permutation (sort.Slice chunk_less chunks) chunks /\
  StronglySorted (fun a b => extractNumber a <= extractNumber b)
    (sort.Slice chunk_less chunks) /\
  forall k,
    filter (fun c => extractNumber c = k) (sort.Slice chunk_less chunks)
    = filter (fun c => extractNumber c = k) chunks.
Proof.
  intros Hlen. rewrite (Slice_insertion chunk_less chunks Hlen).
  split; [apply insertion_from_left_Permutation|].
  split; [apply insertion_from_left_ascending|].
  intros k. apply insertion_from_left_keeps_ties.
Qed.

(** C5, as amended: the chunk sort is [sort.Slice], which sorts a slice
    of at most twelve elements by insertion. For a directory of at most
    twelve chunks the sort is therefore stable: a successful merge
    leaves the contents of the chunks in an order that holds each
    enumerated file name once, ascends in the keys, and keeps names with
    equal keys (duplicate numbering, or the key -1 of names without a
    number) in the order of the enumeration, which is the order of the
    file names. Beyond twelve chunks this is lost. *)
Theorem chunk_sort_stable_up_to_twelve
  (inputDir outputFile : string) (chunks : list string) (w w' : World) :
  (length chunks <= 12)%nat ->
  w_glob w (filepath_Join inputDir "*.chunk") = (chunks, None) ->
  ~ In outputFile chunks ->
  mergeChunks sort.Slice inputDir outputFile w = Returned None w' ->
  w_fs w' !! outputFile =
    Some (Regular (concat (map (file_content (w_fs w))
                             (sort.Slice chunk_less chunks)))) /\
  Permutation (sort.Slice chunk_less chunks) chunks /\
  StronglySorted (fun a b => extractNumber a <= extractNumber b)
    (sort.Slice chunk_less chunks) /\
  forall k,
    filter (fun c => extractNumber c = k) (sort.Slice chunk_less chunks)
    = filter (fun c => extractNumber c = k) chunks.
Proof.
  intros Hlen Hglob Hnot Hrun.
  destruct (Slice_stable_up_to_twelve chunks Hlen) as (Hperm & Hasc & Hties).
  split; [|auto].
  destruct (mergeChunks_success_created _ _ _ _ _ _ Hglob Hrun) as [Hdeny Hdir].
  destruct (mergeChunks_sorted_copy sort.Slice inputDir outputFile w chunks
              Hperm Hglob Hdeny Hdir Hnot) as (r & w1 & Hrun1 & _ & _ & Hres).
  rewrite Hrun in Hrun1. injection Hrun1 as <- <-.
  apply Hres.
Qed.

Lemma chunk_sort_small_witness :
  w_fs (merged_world sort.Slice "/v" "/v/merged.mp4" world_unnumbered)
    !! "/v/merged.mp4" =
    Some (Regular (concat (map (file_content (w_fs world_unnumbered))
                             (sort.Slice chunk_less unnumbered_chunks)))) /\
  Permutation (sort.Slice chunk_less unnumbered_chunks) unnumbered_chunks /\
  StronglySorted (fun a b => extractNumber a <= extractNumber b)
    (sort.Slice chunk_less unnumbered_chunks) /\
  forall k,
    filter (fun c => extractNumber c = k)
      (sort.Slice chunk_less unnumbered_chunks)
    = filter (fun c => extractNumber c = k) unnumbered_chunks.
Proof.
  apply (chunk_sort_stable_up_to_twelve "/v" "/v/merged.mp4" unnumbered_chunks
           world_unnumbered).
  - simpl. lia.
  - reflexivity.
  - intros [H|[H|[]]]; discriminate H.
  - vm_compute. reflexivity.
Defined.

(** Two chunks without a number are merged in the order of their names. *)
Example unnumbered_pair_keeps_order :
  merge_outcome sort.Slice "/v" "/v/merged.mp4" world_unnumbered =
    Some (None, Some (Regular (bytes_of "AB"))).
Proof. vm_compute. reflexivity. Qed.

(** C5 as stated fails from thirteen chunks on: [sort.Slice] then
    starts by exchanging the first element with the pivot it chose.
    Twelve chunks numbered 5 followed by one numbered 0, in file-name
    order: the seventh of the twelve ends up first among them and the
    second one last, and the merged file holds their bytes in that
    order. The same happens to twelve chunks without a number that
    follow a numbered one. *)
Lemma thirteen_chunks_ties_reordered :
  (w_glob world_tied (filepath_Join "/v" "*.chunk") = (tied_chunks, None) /\
   filter (fun c => extractNumber c = 5) tied_chunks =
     ["/v/a5.chunk"; "/v/b5.chunk"; "/v/c5.chunk"; "/v/d5.chunk";
       "/v/e5.chunk"; "/v/f5.chunk"; "/v/g5.chunk"; "/v/h5.chunk";
       "/v/i5.chunk"; "/v/j5.chunk"; "/v/k5.chunk"; "/v/l5.chunk"] /\
   filter (fun c => extractNumber c = 5) (sort.Slice chunk_less tied_chunks) =
     ["/v/g5.chunk"; "/v/c5.chunk"; "/v/d5.chunk"; "/v/e5.chunk";
       "/v/f5.chunk"; "/v/a5.chunk"; "/v/h5.chunk"; "/v/i5.chunk";
       "/v/j5.chunk"; "/v/k5.chunk"; "/v/l5.chunk"; "/v/b5.chunk"] /\
   merge_outcome sort.Slice "/v" "/v/merged.mp4" world_tied =
     Some (None, Some (Regular (bytes_of "ZGCDEFAHIJKLB")))) /\
  (w_glob world_unnumbered_tied (filepath_Join "/v" "*.chunk")
     = (unnumbered_tied_chunks, None) /\
   filter (fun c => extractNumber c = -1) unnumbered_tied_chunks =
     ["/v/a.chunk"; "/v/b.chunk"; "/v/c.chunk"; "/v/d.chunk";
       "/v/e.chunk"; "/v/f.chunk"; "/v/g.chunk"; "/v/h.chunk";
       "/v/i.chunk"; "/v/j.chunk"; "/v/k.chunk"; "/v/l.chunk"] /\
   filter (fun c => extractNumber c = -1)
     (sort.Slice chunk_less unnumbered_tied_chunks) =
     ["/v/f.chunk"; "/v/a.chunk"; "/v/b.chunk"; "/v/c.chunk";
       "/v/d.chunk"; "/v/e.chunk"; "/v/g.chunk"; "/v/h.chunk";
       "/v/i.chunk"; "/v/j.chunk"; "/v/k.chunk"; "/v/l.chunk"] /\
   merge_outcome sort.Slice "/v" "/v/merged.mp4" world_unnumbered_tied =
     Some (None, Some (Regular (bytes_of "FABCDEGHIJKLZ")))).
Proof.
  split; (split; [|split; [|split]]); vm_compute; reflexivity.
Qed.

(** ** The pipeline *)

Lemma logError_Some task message details w :
  logError task message (Some details) w =
    Returned tt (logged_error task message details w).
Proof. reflexivity. Qed.

(** A step failed: the error is logged and returned. *)
Ltac failed_step Hdb :=
  rewrite logError_Some; eexists _, _; split; [reflexivity|];
  split; [exact Hdb|]; split; [intros H; discriminate H|];
  intros e' [= <-]; eexists; simpl; apply last_snoc.

Section Pipeline.

Variable sort_Slice : (string -> string -> bool) -> list string -> list string.
Variable json_Unmarshal : list byte -> VideoTask -> VideoTask * option error.

#[local] Arguments filepath_Join : simpl never.
#[local] Arguments String.append : simpl never.

(** [processVideo] always returns; it never sends a statement to the
    database; it reports success only from the step that removed the
    merged file; and every failure path ends with an error record. *)
Lemma processVideo_returns task w :
  exists r w',
    processVideo sort_Slice task w = Returned r w' /\
    w_db w' = w_db w /\
    (r = None ->
       w_fs w' !! filepath_Join (Path task) "merged.mp4" = None /\
       last (w_log w') =
         Some (mkLog LevelInfo "Removing merged file"
                 [("path", VString (filepath_Join (Path task) "merged.mp4"))])) /\
    (forall e, r = Some e ->
       exists message, last (w_log w') =
         Some (error_record task message e (pred (w_clock w')))).
Proof.
  unfold processVideo. run. unfold slog_Info at 1.
  destruct (mergeChunks_total sort_Slice (Path task)
              (filepath_Join (Path task) "merged.mp4")
              (set_log (w_log w ++ [mkLog LevelInfo "Merging chunks"
                                      [("path", VString (Path task))]]) w))
    as (r1 & w1 & -> & Hfo1).
  pose proof (files_only_db _ _ Hfo1) as Hdb1. simpl in Hdb1.
  destruct r1 as [e1|]; [failed_step Hdb1|].
  unfold slog_Info at 1, os_MkdirAll. simpl.
  destruct (w_deny_mkdir w1 _) as [e2|]; [failed_step Hdb1|].
  destruct (w_fs w1 !! filepath_Join (Path task) "mpeg-dash") as [[| |]|];
    try failed_step Hdb1.
  all: unfold exec_CombinedOutput; simpl.
  all: destruct (w_exec w1 _ _) as [e3|fs3 out3 code3]; try failed_step Hdb1.
  all: destruct (code3 =? 0); try failed_step Hdb1.
  all: unfold os_Remove; simpl.
  all: destruct (w_deny_remove w1 _) as [e4|]; try failed_step Hdb1.
  all: destruct (fs3 !! _) as [n|]; try failed_step Hdb1.
  all: eexists _, _; (split; [reflexivity|]); (split; [exact Hdb1|]);
    (split; [|intros e' H; discriminate H]).
  all: intros _; simpl; split; [apply lookup_delete_eq | apply last_snoc].
Qed.

(** [Handle] always returns, and never sends a statement to the
    database. *)
Lemma Handle_returns msg w :
  exists w',
    Handle sort_Slice json_Unmarshal msg w = Returned tt w' /\
    w_db w' = w_db w.
Proof.
  unfold Handle. destruct (json_Unmarshal msg zero_task) as [task [e|]].
  - rewrite logError_Some. eauto.
  - run. destruct (processVideo_returns task w) as (r & w1 & -> & Hdb & _).
    destruct r as [e|]; [rewrite logError_Some|]; eauto.
Qed.

End Pipeline.

(** ** The message handler *)

(** C10: for every message the handler returns normally. When the
    message does not decode, the only effect is the error record; when
    processing fails, the error is recorded and dropped; neither an
    error nor a panic reaches the caller. *)
Theorem Handle_returns_normally
  (sort_Slice : (string -> string -> bool) -> list string -> list string)
  (json_Unmarshal : list byte -> VideoTask -> VideoTask * option error)
  (msg : list byte) (w : World) :
  exists w',
    Handle sort_Slice json_Unmarshal msg w = Returned tt w' /\
    match json_Unmarshal msg zero_task with
    | (task, Some e) => w' = logged_error task "failed to unmarshal task" e w
    | (task, None) =>
        exists r w1,
          processVideo sort_Slice task w = Returned r w1 /\
          match r with
          | Some e => w' = logged_error task "failed to process video" e w1
          | None => w' = w1
          end
    end.
Proof.
  unfold Handle. destruct (json_Unmarshal msg zero_task) as [task [e|]].
  - rewrite logError_Some. eexists. split; reflexivity.
  - run. destruct (processVideo_returns sort_Slice task w)
      as (r & w1 & Hrun & _).
    rewrite Hrun. destruct r as [e|]; [rewrite logError_Some|];
      eexists; (split; [reflexivity|]); eexists _, _; split; reflexivity.
Qed.

(** ** Idempotency *)

(** C2, as amended: the pipeline does not use the idempotency store.
    [Handle] and [processVideo] send no statement to the database: no
    check before the merge, no success record after it.
    [processVideo] reports success only from the step that removed the
    merged file. *)
Theorem pipeline_never_uses_idempotency_store
  (sort_Slice : (string -> string -> bool) -> list string -> list string)
  (json_Unmarshal : list byte -> VideoTask -> VideoTask * option error)
  (msg : list byte) (task : VideoTask) (w : World) :
  (exists w',
     Handle sort_Slice json_Unmarshal msg w = Returned tt w' /\
     w_db w' = w_db w) /\
  (exists r w',
     processVideo sort_Slice task w = Returned r w' /\
     w_db w' = w_db w /\
     (r = None ->
        w_fs w' !! filepath_Join (Path task) "merged.mp4" = None /\
        last (w_log w') =
          Some (mkLog LevelInfo "Removing merged file"
                  [("path",
                    VString (filepath_Join (Path task) "merged.mp4"))]))).
Proof.
  split; [apply Handle_returns|].
  destruct (processVideo_returns sort_Slice task w)
    as (r & w' & Hrun & Hdb & Hok & _).
  eauto.
Qed.

(** C2 as stated fails: a task is handled with success -- the manifest
    is written, the merged file is removed, no error is logged -- and
    the database has received no statement: no check was made and no
    success record exists, so the task still counts as not processed. *)
Lemma successful_task_leaves_no_success_record :
  exists w',
    Handle insertion_sort sample_Unmarshal sample_message world_numbered
      = Returned tt w' /\
    map log_level (w_log w') =
      [LevelInfo; LevelInfo; LevelInfo; LevelInfo; LevelInfo] /\
    is_Some (w_fs w' !! "/v/mpeg-dash/output.mpd") /\
    w_fs w' !! "/v/merged.mp4" = None /\
    db_statements (w_db w') = [] /\
    processed_videos (w_db w') = [] /\
    exists w'', IsProcessed 7 w' = Returned false w''.
Proof.
  exists (world_of (Handle insertion_sort sample_Unmarshal sample_message
                      world_numbered) world_numbered).
  split; [vm_compute; reflexivity|].
  split; [vm_compute; reflexivity|].
  split; [exists (Regular (bytes_of "<MPD/>")); vm_compute; reflexivity|].
  split; [vm_compute; reflexivity|].
  split; [vm_compute; reflexivity|].
  split; [vm_compute; reflexivity|].
  exists (world_of (IsProcessed 7
                      (world_of (Handle insertion_sort sample_Unmarshal
                                   sample_message world_numbered)
                         world_numbered)) world_numbered).
  vm_compute. reflexivity.
Qed.

(** ** Error reporting *)

(** C6 at two failing inputs. A message that does not decode, and a
    video the transcoder rejects: each failure is logged, and the
    database receives no statement, so no error record is stored. *)
Lemma failures_logged_not_persisted :
  (exists w',
     Handle insertion_sort sample_Unmarshal [] world_numbered
       = Returned tt w' /\
     w_log w' =
       [error_record zero_task "failed to unmarshal task"
          "unexpected end of JSON input" 0] /\
     process_errors_log (w_db w') = [] /\
     db_statements (w_db w') = []) /\
  (exists w',
     Handle insertion_sort sample_Unmarshal sample_message world_bad_video
       = Returned tt w' /\
     filter (fun r => log_level r = LevelError) (w_log w') =
       [error_record (mkTask 7 "/v")
          ("failed to convert video to mpeg-dash, output: " +:+
           "Invalid data found when processing input")
          "exit status 1" 0;
        error_record (mkTask 7 "/v") "failed to process video"
          "exit status 1" 1] /\
     process_errors_log (w_db w') = [] /\
     db_statements (w_db w') = []).
Proof.
  split.
  - exists (world_of (Handle insertion_sort sample_Unmarshal []
                        world_numbered) world_numbered).
    split; [|split; [|split]]; vm_compute; reflexivity.
  - exists (world_of (Handle insertion_sort sample_Unmarshal sample_message
                        world_bad_video) world_bad_video).
    split; [|split; [|split]]; vm_compute; reflexivity.
Qed.

(** ** The transcoder *)

#[local] Arguments filepath_Join : simpl never.
#[local] Arguments String.append : simpl never.

(** [CombinedOutput] reports no error exactly when the command ran and
    exited with code zero. *)
Lemma CombinedOutput_nil_iff_exit_zero args w output err w' :
  exec_CombinedOutput args w = Returned (output, err) w' ->
  err = None <->
  exists fs', w_exec w args (w_fs w) = Exited fs' output 0.
Proof.
  unfold exec_CombinedOutput.
  destruct (w_exec w args (w_fs w)) as [e|fs' out code].
  - intros [= <- <- <-]. split; [discriminate|]. intros [fs' H]. discriminate H.
  - destruct (code =? 0) eqn:Hcode; intros [= <- <- <-].
    + apply Z.eqb_eq in Hcode as ->. split; eauto.
    + apply Z.eqb_neq in Hcode. split; [discriminate|].
      intros [fs'' [= _ Hc]]. contradiction.
Qed.

(** C7: once the merge and the creation of the output directory have
    succeeded, the transcoder is invoked, and its success is exit code
    zero: the pipeline then goes on (it logs the conversion and turns to
    the merged file). On another exit code, or when the command does
    not start, [processVideo] fails with the error of the invocation,
    and the error record carries the combined output. *)
Theorem transcode_success_is_exit_zero
  (sort_Slice : (string -> string -> bool) -> list string -> list string)
  (task : VideoTask) (w w1 w2 : World) :
  mergeChunks sort_Slice (Path task) (filepath_Join (Path task) "merged.mp4")
    (logged_info "Merging chunks" [("path", VString (Path task))] w)
    = Returned None w1 ->
  os_MkdirAll (filepath_Join (Path task) "mpeg-dash")
    (logged_info "Creating mpeg-dash dir" [("path", VString (Path task))] w1)
    = Returned None w2 ->
  match w_exec w2 (ffmpeg_args task) (w_fs w2) with
  | Exited fs' output code =>
      if code =? 0 then
        exists r w' later,
          processVideo sort_Slice task w = Returned r w' /\
          w_log w' =
            w_log w2 ++
            mkLog LevelInfo "Converting video to mpeg-dash"
              [("path", VString (Path task))] ::
            mkLog LevelInfo "Video convert to mpeg-dash"
              [("path", VString (filepath_Join (Path task) "mpeg-dash"))] ::
            later
      else
        processVideo sort_Slice task w =
          Returned (Some ("exit status " +:+ pretty code))
            (logged_error task
               ("failed to convert video to mpeg-dash, output: " +:+
                string_of_list_byte output)
               ("exit status " +:+ pretty code)
               (set_fs fs'
                  (logged_info "Converting video to mpeg-dash"
                     [("path", VString (Path task))] w2)))
  | NotStarted e =>
      processVideo sort_Slice task w =
        Returned (Some e)
          (logged_error task
             ("failed to convert video to mpeg-dash, output: " +:+
              string_of_list_byte [])
             e
             (logged_info "Converting video to mpeg-dash"
                [("path", VString (Path task))] w2))
  end.
Proof.
  intros Hmerge Hmkdir. unfold logged_info in Hmerge, Hmkdir.
  assert (Hstart : processVideo sort_Slice task w =
    ('(output, err) ← exec_CombinedOutput (ffmpeg_args task);
     match err with
     | Some _ =>
         logError task ("failed to convert video to mpeg-dash, output: " +:+
                        string_of_list_byte output) err;;
         mret err
     | None =>
         slog_Info "Video convert to mpeg-dash"
           [("path", VString (filepath_Join (Path task) "mpeg-dash"))];;
         slog_Info "Removing merged file"
           [("path", VString (filepath_Join (Path task) "merged.mp4"))];;
         err ← os_Remove (filepath_Join (Path task) "merged.mp4");
         match err with
         | Some _ => logError task "failed to remove merged file" err;; mret err
         | None => mret None
         end
     end)
      (logged_info "Converting video to mpeg-dash"
         [("path", VString (Path task))] w2)).
  { unfold processVideo. run. unfold slog_Info at 1. rewrite Hmerge.
    unfold slog_Info at 1. rewrite Hmkdir. reflexivity. }
  rewrite Hstart. clear Hstart Hmerge Hmkdir. run.
  unfold exec_CombinedOutput. simpl. fold (ffmpeg_args task).
  destruct (w_exec w2 (ffmpeg_args task) (w_fs w2)) as [e|fs' output code].
  - rewrite logError_Some. reflexivity.
  - destruct (code =? 0); [|rewrite logError_Some; reflexivity].
    unfold slog_Info, os_Remove. simpl.
    destruct (w_deny_remove w2 _) as [e|].
    { rewrite logError_Some. eexists _, _, _. split; [reflexivity|].
      simpl. rewrite <- !app_assoc. reflexivity. }
    destruct (fs' !! _) as [n|].
    + eexists _, _, _. split; [reflexivity|].
      simpl. rewrite <- !app_assoc. reflexivity.
    + rewrite logError_Some. eexists _, _, _. split; [reflexivity|].
      simpl. rewrite <- !app_assoc. reflexivity.
Qed.

Lemma transcode_rejected_witness :
  processVideo insertion_sort task_7 world_bad_video =
    Returned (Some "exit status 1")
      (logged_error task_7
         ("failed to convert video to mpeg-dash, output: " +:+
          "Invalid data found when processing input")
         "exit status 1"
         (logged_info "Converting video to mpeg-dash"
            [("path", VString "/v")] bad_video_ready)).
Proof.
  assert (H1 : mergeChunks insertion_sort (Path task_7)
                 (filepath_Join (Path task_7) "merged.mp4")
                 (logged_info "Merging chunks"
                    [("path", VString (Path task_7))] world_bad_video)
               = Returned None bad_video_merged)
    by (vm_compute; reflexivity).
  assert (H2 : os_MkdirAll (filepath_Join (Path task_7) "mpeg-dash")
                 (logged_info "Creating mpeg-dash dir"
                    [("path", VString (Path task_7))] bad_video_merged)
               = Returned None bad_video_ready)
    by (vm_compute; reflexivity).
  exact (transcode_success_is_exit_zero insertion_sort task_7
           world_bad_video bad_video_merged bad_video_ready H1 H2).
Defined.

(** ** The idempotency store and the error log *)

(** C8: when the insertion of an error record fails, [RegisterError]
    logs that failure and returns; it cannot panic on this path (not
    even for a [nil] error), it stores nothing, and it leaves the
    records logged before in place. *)
Theorem RegisterError_swallows_persistence_failure
  (errorData : gmap string any) (err : option error) (w : World)
  (cause : error) :
  db_fault (w_db w) (InsertError errorData (w_clock w)) = Some cause ->
  exists w',
    RegisterError errorData err w = Returned tt w' /\
    w_log w' =
      w_log w ++ [mkLog LevelError "Error storing error log in database"
                    [("error", VString cause)]] /\
    process_errors_log (w_db w') = process_errors_log (w_db w) /\
    processed_videos (w_db w') = processed_videos (w_db w) /\
    w_fs w' = w_fs w.
Proof.
  intros Hfault. unfold RegisterError, time_Now, db_Exec. run. simpl.
  rewrite Hfault. eexists. split; [reflexivity|]. simpl. auto.
Qed.

Lemma RegisterError_db_down_witness :
  exists w',
    RegisterError {[ "error" := AnyString "failed to merge chunks" ]} None
      world_db_down = Returned tt w' /\
    w_log w' =
      w_log world_db_down ++
        [mkLog LevelError "Error storing error log in database"
           [("error", VString "connection refused")]] /\
    process_errors_log (w_db w') = process_errors_log (w_db world_db_down) /\
    processed_videos (w_db w') = processed_videos (w_db world_db_down) /\
    w_fs w' = w_fs world_db_down.
Proof.
  apply (RegisterError_swallows_persistence_failure
           {[ "error" := AnyString "failed to merge chunks" ]} None
           world_db_down "connection refused").
  reflexivity.
Defined.

(** When the insertion succeeds, the record is stored; with a [nil]
    error the function then panics on [err.Error()]. *)
Example RegisterError_stores :
  (exists w',
     RegisterError {[ "error" := AnyString "failed to merge chunks" ]}
       (Some "no space left on device") world_numbered = Returned tt w' /\
     process_errors_log (w_db w') =
       [({[ "error" := AnyString "failed to merge chunks" ]}, 0%nat)]) /\
  RegisterError {[ "error" := AnyString "failed to merge chunks" ]} None
    world_numbered =
    Panicked "invalid memory address or nil pointer dereference".
Proof.
  split.
  - exists (world_of (RegisterError
                        {[ "error" := AnyString "failed to merge chunks" ]}
                        (Some "no space left on device") world_numbered)
              world_numbered).
    split; vm_compute; reflexivity.
  - vm_compute. reflexivity.
Qed.

(** C9: when the query of [IsProcessed] fails, the answer is [false],
    whatever the table holds: the failure is logged and the video counts
    as not processed. *)
Theorem IsProcessed_false_when_query_fails
  (videoID : Z) (w : World) (cause : error) :
  db_fault (w_db w) (SelectProcessed videoID) = Some cause ->
  exists w',
    IsProcessed videoID w = Returned false w' /\
    w_log w' =
      w_log w ++ [mkLog LevelError "Error checking if video is processed"
                    [("video_id", VInt videoID)]] /\
    processed_videos (w_db w') = processed_videos (w_db w).
Proof.
  intros Hfault. unfold IsProcessed, db_QueryRow_Scan_exists. run. simpl.
  rewrite Hfault. eexists. split; [reflexivity|]. simpl. auto.
Qed.

Lemma IsProcessed_db_down_witness :
  existsb (is_success_row 7) (processed_videos (w_db world_db_down)) = true /\
  exists w',
    IsProcessed 7 world_db_down = Returned false w' /\
    w_log w' =
      w_log world_db_down ++
        [mkLog LevelError "Error checking if video is processed"
           [("video_id", VInt 7)]] /\
    processed_videos (w_db w') = processed_videos (w_db world_db_down).
Proof.
  split; [reflexivity|].
  apply (IsProcessed_false_when_query_fails 7 world_db_down
           "connection refused").
  reflexivity.
Defined.

(** With the database up, [IsProcessed] answers from the table, and
    [MarkProcess] adds the success record. *)
Example MarkProcess_then_IsProcessed :
  exists w1 w2 w3,
    IsProcessed 7 world_numbered = Returned false w1 /\
    MarkProcess 7 w1 = Returned None w2 /\
    IsProcessed 7 w2 = Returned true w3 /\
    processed_videos (w_db w3) = [(7, "success", 0%nat)].
Proof.
  exists (world_of (IsProcessed 7 world_numbered) world_numbered).
  exists (world_of (MarkProcess 7
            (world_of (IsProcessed 7 world_numbered) world_numbered))
            world_numbered).
  exists (world_of (IsProcessed 7
            (world_of (MarkProcess 7
               (world_of (IsProcessed 7 world_numbered) world_numbered))
               world_numbered)) world_numbered).
  split; [|split; [|split]]; vm_compute; reflexivity.
Qed.

(** * Further properties of the package *)

(** ** The idempotency store: records and answers *)

Lemma MarkProcess_success videoID w w1 :
  MarkProcess videoID w = Returned None w1 ->
  w_db w1 =
    apply_stmt (InsertProcessed videoID "success" (w_clock w))
      (record_stmt (InsertProcessed videoID "success" (w_clock w)) (w_db w)) /\
  w_clock w1 = S (w_clock w).
Proof.
  unfold MarkProcess, time_Now, db_Exec. run. simpl.
  destruct (db_fault (w_db w) _) as [e|]; intros [= <-]; simpl; auto.
Qed.

Lemma existsb_snoc {A} (f : A -> bool) l x :
  existsb f (l ++ [x]) = existsb f l || f x.
Proof. rewrite existsb_app. simpl. now rewrite orb_false_r. Qed.

(** A video that [MarkProcess] has marked is processed: if the
    insertion succeeded and the next query goes through, [IsProcessed]
    answers [true]. *)
Theorem marked_video_is_processed (videoID : Z) (w w1 : World) :
  MarkProcess videoID w = Returned None w1 ->
  db_fault (w_db w1) (SelectProcessed videoID) = None ->
  exists w2, IsProcessed videoID w1 = Returned true w2.
Proof.
  intros Hmark Hup. destruct (MarkProcess_success _ _ _ Hmark) as [Hdb _].
  unfold IsProcessed, db_QueryRow_Scan_exists. run. simpl.
  rewrite Hup. eexists.
  assert (Hrow : existsb (is_success_row videoID) (processed_videos (w_db w1))
                 = true).
  { rewrite Hdb. simpl. rewrite existsb_snoc.
    unfold is_success_row at 2. rewrite Z.eqb_refl. simpl.
    apply orb_true_r. }
  rewrite Hrow. reflexivity.
Qed.

Lemma marked_video_witness :
  exists w2, IsProcessed 7 world_marked = Returned true w2.
Proof.
  apply (marked_video_is_processed 7 world_numbered world_marked).
  - vm_compute. reflexivity.
  - reflexivity.
Defined.

Lemma is_success_row_other other videoID status t :
  other <> videoID -> is_success_row other (videoID, status, t) = false.
Proof.
  intros Hne. unfold is_success_row.
  assert (Hf : (videoID =? other) = false) by (apply Z.eqb_neq; congruence).
  now rewrite Hf.
Qed.

(** [MarkProcess] for one video does not change what [IsProcessed]
    answers for another video, whether the insertion succeeded or not. *)
Theorem MarkProcess_keeps_other_answers
  (videoID other : Z) (r : option error) (w w1 : World) :
  other <> videoID ->
  MarkProcess videoID w = Returned r w1 ->
  result_of (IsProcessed other w1) = result_of (IsProcessed other w).
Proof.
  intros Hne Hmark.
  assert (Hdb : db_fault (w_db w1) = db_fault (w_db w) /\
                existsb (is_success_row other) (processed_videos (w_db w1)) =
                existsb (is_success_row other) (processed_videos (w_db w))).
  { revert Hmark. unfold MarkProcess, time_Now, db_Exec. run. simpl.
    destruct (db_fault (w_db w) _) as [e|]; intros [= <- <-]; simpl;
      (split; [reflexivity|]); [reflexivity|].
    rewrite existsb_snoc, is_success_row_other by exact Hne.
    apply orb_false_r. }
  destruct Hdb as [Hfault Hrows].
  unfold IsProcessed, db_QueryRow_Scan_exists. run. simpl.
  rewrite Hfault, Hrows.
  destruct (db_fault (w_db w) (SelectProcessed other)) as [e|]; reflexivity.
Qed.

Lemma MarkProcess_other_witness :
  result_of (IsProcessed 8 world_marked) =
  result_of (IsProcessed 8 world_numbered).
Proof.
  apply (MarkProcess_keeps_other_answers 7 8 None world_numbered world_marked).
  - discriminate.
  - vm_compute. reflexivity.
Defined.

(** [MarkProcess] does not look for an existing record: two calls that
    the database accepts leave two success rows for the video. *)
Theorem MarkProcess_twice_two_records (videoID : Z) (w w1 w2 : World) :
  MarkProcess videoID w = Returned None w1 ->
  MarkProcess videoID w1 = Returned None w2 ->
  processed_videos (w_db w2) =
    processed_videos (w_db w) ++
      [(videoID, "success", w_clock w); (videoID, "success", S (w_clock w))].
Proof.
  intros H1 H2.
  destruct (MarkProcess_success _ _ _ H1) as [Hdb1 Hclock1].
  destruct (MarkProcess_success _ _ _ H2) as [Hdb2 _].
  rewrite Hdb2, Hclock1, Hdb1. simpl. now rewrite <- app_assoc.
Qed.

Lemma MarkProcess_twice_witness :
  processed_videos (w_db world_marked_twice) =
    processed_videos (w_db world_numbered) ++
      [(7, "success", w_clock world_numbered);
       (7, "success", S (w_clock world_numbered))].
Proof.
  apply (MarkProcess_twice_two_records 7 world_numbered world_marked
           world_marked_twice); vm_compute; reflexivity.
Defined.

(** When the insertion fails, [MarkProcess] logs it and returns the
    error of the database; no row is added. *)
Theorem MarkProcess_reports_failure (videoID : Z) (w : World) (cause : error) :
  db_fault (w_db w) (InsertProcessed videoID "success" (w_clock w))
    = Some cause ->
  exists w',
    MarkProcess videoID w = Returned (Some cause) w' /\
    processed_videos (w_db w') = processed_videos (w_db w) /\
    w_log w' =
      w_log w ++ [mkLog LevelError "Error marking video as processed"
                    [("video_id", VInt videoID)]].
Proof.
  intros Hfault. unfold MarkProcess, time_Now, db_Exec. run. simpl.
  rewrite Hfault. eexists. split; [reflexivity|]. simpl. auto.
Qed.

Lemma MarkProcess_db_down_witness :
  exists w',
    MarkProcess 9 world_db_down = Returned (Some "connection refused") w' /\
    processed_videos (w_db w') = processed_videos (w_db world_db_down) /\
    w_log w' =
      w_log world_db_down ++
        [mkLog LevelError "Error marking video as processed"
           [("video_id", VInt 9)]].
Proof.
  apply (MarkProcess_reports_failure 9 world_db_down "connection refused").
  reflexivity.
Defined.

Lemma existsb_success_row videoID rows :
  existsb (is_success_row videoID) rows = true <->
  exists t, In (videoID, "success", t) rows.
Proof.
  rewrite existsb_exists. split.
  - intros ([[id status] t] & Hin & Hrow). unfold is_success_row in Hrow.
    apply andb_prop in Hrow as [Hid Hst]. apply Z.eqb_eq in Hid as ->.
    destruct (string_dec status "success") as [->|]; [|discriminate Hst].
    eauto.
  - intros [t Hin]. exists (videoID, "success", t). split; [exact Hin|].
    unfold is_success_row. rewrite Z.eqb_refl. reflexivity.
Qed.

(** When the query goes through, [IsProcessed] answers [true] exactly
    if the table holds a row of the video with status [success]; rows of
    other videos and rows with another status do not count. It logs
    nothing and changes no table. *)
Theorem IsProcessed_answers_from_table (videoID : Z) (w : World) :
  db_fault (w_db w) (SelectProcessed videoID) = None ->
  exists b w',
    IsProcessed videoID w = Returned b w' /\
    (b = true <-> exists t, In (videoID, "success", t)
                               (processed_videos (w_db w))) /\
    w_log w' = w_log w /\
    processed_videos (w_db w') = processed_videos (w_db w) /\
    process_errors_log (w_db w') = process_errors_log (w_db w).
Proof.
  intros Hup. unfold IsProcessed, db_QueryRow_Scan_exists. run. simpl.
  rewrite Hup. eexists _, _. split; [reflexivity|].
  split; [apply existsb_success_row|]. simpl. auto.
Qed.

Lemma IsProcessed_table_witness :
  exists b w',
    IsProcessed 7 world_marked = Returned b w' /\
    (b = true <-> exists t, In (7, "success", t)
                               (processed_videos (w_db world_marked))) /\
    w_log w' = w_log world_marked /\
    processed_videos (w_db w') = processed_videos (w_db world_marked) /\
    process_errors_log (w_db w') = process_errors_log (w_db world_marked).
Proof.
  apply (IsProcessed_answers_from_table 7 world_marked). reflexivity.
Defined.

(** ** The error log *)

(** When the insertion goes through, [RegisterError] adds one row that
    holds the details it was given, stamped with the time of the call,
    and logs the original error at level Info. *)
Theorem RegisterError_stores_details
  (errorData : gmap string any) (e : error) (w : World) :
  db_fault (w_db w) (InsertError errorData (w_clock w)) = None ->
  exists w',
    RegisterError errorData (Some e) w = Returned tt w' /\
    process_errors_log (w_db w') =
      process_errors_log (w_db w) ++ [(errorData, w_clock w)] /\
    processed_videos (w_db w') = processed_videos (w_db w) /\
    w_log w' =
      w_log w ++ [mkLog LevelInfo "Error log stored successfully"
                    [("error", VString e)]].
Proof.
  intros Hup. unfold RegisterError, time_Now, db_Exec. run. simpl.
  rewrite Hup. eexists. split; [reflexivity|]. simpl. auto.
Qed.

Lemma RegisterError_stores_witness :
  exists w',
    RegisterError sample_details (Some "no space left on device")
      world_numbered = Returned tt w' /\
    process_errors_log (w_db w') =
      process_errors_log (w_db world_numbered) ++
        [(sample_details, w_clock world_numbered)] /\
    processed_videos (w_db w') = processed_videos (w_db world_numbered) /\
    w_log w' =
      w_log world_numbered ++
        [mkLog LevelInfo "Error log stored successfully"
           [("error", VString "no space left on device")]].
Proof.
  apply (RegisterError_stores_details sample_details
           "no space left on device" world_numbered).
  reflexivity.
Defined.

(** [RegisterError] panics in one case only: the error it is given is
    [nil] and the insertion went through (the row is stored, then
    [err.Error()] is evaluated for the log). *)
Theorem RegisterError_panics_iff
  (errorData : gmap string any) (err : option error) (w : World) :
  (exists reason, RegisterError errorData err w = Panicked reason) <->
  err = None /\
  db_fault (w_db w) (InsertError errorData (w_clock w)) = None.
Proof.
  unfold RegisterError, time_Now, db_Exec. run. simpl.
  destruct (db_fault (w_db w) _) as [cause|]; simpl.
  - split; [intros [reason H]; discriminate H | intros [_ H]; discriminate H].
  - destruct err as [e|]; simpl.
    + split; [intros [reason H]; discriminate H | intros [H _]; discriminate H].
    + split; [auto | eauto].
Qed.

(** ** The ordering key, completely *)

Lemma leading_digits_split s :
  exists post, s = leading_digits s +:+ post /\
               all_digits (leading_digits s) = true /\
               starts_without_digit post.
Proof.
  induction s as [|c r (post & Hr & Hall & Hpost)]; simpl.
  - exists EmptyString. repeat split.
  - destruct (is_digit c) eqn:Hc.
    + exists post.
      change (String c (leading_digits r) +:+ post)
        with (String c (leading_digits r +:+ post)).
      rewrite <- Hr. repeat split; [|exact Hpost].
      unfold all_digits in *. simpl. now rewrite Hc.
    + exists (String c r). repeat split. exact Hc.
Qed.

(** The regular expression finds a run whenever the name has a digit. *)
Lemma FindString_complete s :
  (regexp_digits_FindString s = EmptyString /\ no_digit s) \/
  first_digit_run s (regexp_digits_FindString s).
Proof.
  induction s as [|c r IH]; simpl.
  - left. split; reflexivity.
  - destruct (is_digit c) eqn:Hc.
    + right. destruct (leading_digits_split r) as (post & Hr & Hall & Hpost).
      rewrite Hr at 1.
      apply (first_digit_run_intro EmptyString
               (String c (leading_digits r)) post).
      * reflexivity.
      * discriminate.
      * unfold all_digits in *. simpl. now rewrite Hc.
      * exact Hpost.
    + destruct IH as [[Hnone Hno] | Hrun].
      * left. split; [exact Hnone|]. unfold no_digit in *. simpl.
        now rewrite Hc.
      * right. remember (regexp_digits_FindString r) as found eqn:E. clear E.
        destruct Hrun as [pre run post Hpre Hne Hall Hpost].
        change (String c (pre +:+ run +:+ post))
          with (String c pre +:+ run +:+ post).
        apply first_digit_run_intro; auto.
        unfold no_digit in *. simpl. now rewrite Hc.
Qed.

Lemma first_digit_run_digits s run :
  first_digit_run s run -> run <> EmptyString /\ all_digits run = true.
Proof. destruct 1; auto. Qed.

Lemma Atoi_digits_out_of_range run :
  run <> EmptyString -> all_digits run = true ->
  maxInt < decimal_value 0 run ->
  exists v e, strconv_Atoi run = (v, Some e).
Proof.
  intros Hne Hall Hmax.
  destruct run as [|c r]; [congruence|].
  assert (Hc : is_digit c = true).
  { unfold all_digits in Hall. simpl in Hall. now apply andb_prop in Hall as [? _]. }
  destruct (digit_not_sign c Hc) as [Hm Hp].
  assert (Hbody : (let '(neg, body) :=
             match String c r with
             | String "-"%char r0 => (true, r0)
             | String "+"%char r0 => (false, r0)
             | _ => (false, String c r)
             end in (neg, body)) = (false, String c r)).
  { destruct c as [[] [] [] [] [] [] [] []]; try reflexivity; congruence. }
  unfold strconv_Atoi.
  destruct (match String c r with
            | String "-"%char r0 => (true, r0)
            | String "+"%char r0 => (false, r0)
            | _ => (false, String c r)
            end) as [neg body].
  injection Hbody as -> ->.
  rewrite Hall. cbv zeta.
  destruct (decimal_value 0 (String c r) <? minInt); [eauto|].
  assert (Hmx : (maxInt <? decimal_value 0 (String c r)) = true)
    by now apply Z.ltb_lt.
  rewrite Hmx. eauto.
Qed.

Lemma extractNumber_either (fileName : string) :
  (exists n, embedded_integer fileName n /\ 0 <= n <= maxInt /\
             extractNumber fileName = n) \/
  ((forall n, embedded_integer fileName n -> maxInt < n) /\
   extractNumber fileName = -1).
Proof.
  destruct (FindString_complete (filepath_Base fileName))
    as [[Hnone Hno] | Hrun].
  - right. split.
    + intros n (run & Hrun & _).
      destruct (first_digit_run_digits _ _ Hrun) as [Hne _].
      apply FindString_first_run in Hrun. congruence.
    + unfold extractNumber. rewrite Hnone. reflexivity.
  - set (run := regexp_digits_FindString (filepath_Base fileName)) in *.
    assert (Hemb : embedded_integer fileName (decimal_value 0 run))
      by (exists run; auto).
    destruct (first_digit_run_digits _ _ Hrun) as [Hne Hall].
    destruct (Z_le_gt_dec (decimal_value 0 run) maxInt) as [Hle | Hgt].
    + left. exists (decimal_value 0 run). split; [exact Hemb|].
      split; [|now apply extractNumber_embedded].
      split; [|exact Hle]. apply decimal_value_nonneg; [exact Hall | lia].
    + right. split.
      * intros n Hn. rewrite (embedded_integer_unique _ _ _ Hn Hemb). lia.
      * unfold extractNumber. fold run.
        destruct (Atoi_digits_out_of_range run Hne Hall) as (v & e & ->);
          [lia | reflexivity].
Qed.

(** What [extractNumber] answers, case by case: the embedded integer of
    the base name when there is one that an [int] can hold, and -1 in
    every other case -- no digit in the base name, or a number beyond
    the largest [int]. *)
Theorem extractNumber_cases (fileName : string) :
  (exists n, embedded_integer fileName n /\ 0 <= n <= maxInt /\
             extractNumber fileName = n) \/
  ((forall n, embedded_integer fileName n -> maxInt < n) /\
   extractNumber fileName = -1).
Proof. apply extractNumber_either. Qed.

(** [extractNumber] answers -1 or a number from 0 to the largest [int]:
    no file name gets a key below the sentinel. *)
Theorem extractNumber_range (fileName : string) :
  -1 <= extractNumber fileName <= maxInt.
Proof.
  assert (0 <= maxInt) by (unfold maxInt, intSize; simpl; lia).
  destruct (extractNumber_either fileName) as [(n & _ & Hn & ->) | [_ ->]]; lia.
Qed.

(** ** The key looks at the base name only *)

Lemma strip_trailing_cons c r :
  r <> EmptyString -> strip_trailing r = r ->
  strip_trailing (String c r) = String c r.
Proof.
  intros Hne Hr. simpl. rewrite Hr. destruct r; [congruence | reflexivity].
Qed.

Lemma strip_trailing_name name :
  name <> EmptyString -> no_separator name -> strip_trailing name = name.
Proof.
  unfold no_separator. induction name as [|c r IH]; [congruence|].
  intros _ Hsep. simpl in Hsep. apply orb_false_elim in Hsep as [Hc Hr].
  destruct r as [|c' r'].
  - simpl. now rewrite Hc.
  - apply strip_trailing_cons; [discriminate|]. apply IH; [discriminate | exact Hr].
Qed.

Lemma strip_trailing_before_name x name :
  name <> EmptyString -> no_separator name ->
  strip_trailing (x +:+ name) = x +:+ name.
Proof.
  intros Hne Hsep. induction x as [|c x IH].
  - now apply strip_trailing_name.
  - change (String c x +:+ name) with (String c (x +:+ name)).
    apply strip_trailing_cons; [|exact IH].
    destruct x as [|c' x']; [exact Hne|].
    change (String c' x' +:+ name) with (String c' (x' +:+ name)).
    discriminate.
Qed.

Lemma last_element_name name : no_separator name -> last_element name = name.
Proof.
  unfold no_separator. destruct name as [|c r]; [reflexivity|].
  simpl. intros Hsep. apply orb_false_elim in Hsep as [Hc Hr].
  now rewrite Hr, Hc.
Qed.

Lemma separator_in_path x name :
  existsb is_separator
    (list_ascii_of_string (x +:+ String "/"%char name)) = true.
Proof.
  induction x as [|c x IH]; [reflexivity|].
  change (String c x +:+ String "/"%char name)
    with (String c (x +:+ String "/"%char name)).
  simpl. rewrite IH. apply orb_true_r.
Qed.

Lemma last_element_path x name :
  no_separator name -> last_element (x +:+ String "/"%char name) = name.
Proof.
  intros Hsep. induction x as [|c x IH].
  - change (EmptyString +:+ String "/"%char name) with (String "/"%char name).
    simpl. unfold no_separator in Hsep. now rewrite Hsep.
  - change (String c x +:+ String "/"%char name)
      with (String c (x +:+ String "/"%char name)).
    simpl. now rewrite separator_in_path.
Qed.

Lemma Base_nonempty path b :
  path <> EmptyString -> b <> EmptyString ->
  last_element (strip_trailing path) = b -> filepath_Base path = b.
Proof.
  intros Hpath Hb Hlast. unfold filepath_Base.
  destruct path as [|a p]; [congruence|]. cbv beta iota.
  rewrite Hlast. destruct b; [congruence | reflexivity].
Qed.

Lemma path_assoc x name :
  x +:+ String "/"%char name = (x +:+ "/") +:+ name.
Proof.
  induction x as [|c x IH]; [reflexivity|].
  change (String c x +:+ String "/"%char name)
    with (String c (x +:+ String "/"%char name)).
  change ((String c x +:+ "/") +:+ name)
    with (String c ((x +:+ "/") +:+ name)).
  now rewrite IH.
Qed.

Lemma path_elements_nonempty s : path_elements s <> [].
Proof.
  destruct s as [|c r]; [discriminate|]. simpl.
  destruct (is_separator c); [discriminate|].
  destruct (path_elements r); discriminate.
Qed.

Lemma path_elements_name name : no_separator name -> path_elements name = [name].
Proof.
  unfold no_separator. induction name as [|c r IH]; [reflexivity|].
  simpl. intros Hsep. apply orb_false_elim in Hsep as [Hc Hr].
  rewrite Hc, (IH Hr). reflexivity.
Qed.

Lemma path_elements_slash x y :
  path_elements (x +:+ String "/"%char y) = path_elements x ++ path_elements y.
Proof.
  induction x as [|c x IH]; [reflexivity|].
  change (String c x +:+ String "/"%char y)
    with (String c (x +:+ String "/"%char y)).
  simpl. rewrite IH. destruct (is_separator c); [reflexivity|].
  destruct (path_elements x) as [|e es] eqn:He; [|reflexivity].
  now apply path_elements_nonempty in He.
Qed.

Lemma clean_step_plain rooted kept name :
  plain_name name -> clean_step rooted kept name = name :: kept.
Proof.
  intros (Hne & Hdot & Hdots & _). unfold clean_step.
  destruct (string_dec name EmptyString); [congruence|].
  destruct (string_dec name "."); [congruence|].
  destruct (string_dec name ".."); [congruence|]. reflexivity.
Qed.

Lemma join_elements_last l name :
  l <> [] -> join_elements (l ++ [name]) = join_elements l +:+ String "/"%char name.
Proof.
  induction l as [|e l IH]; [congruence|]. intros _.
  destruct l as [|e' l'].
  - reflexivity.
  - change (join_elements ((e :: e' :: l') ++ [name]))
      with (e +:+ "/" +:+ join_elements ((e' :: l') ++ [name])).
    rewrite IH by discriminate.
    change (join_elements (e :: e' :: l'))
      with (e +:+ "/" +:+ join_elements (e' :: l')).
    generalize (join_elements (e' :: l')). intros j.
    induction e as [|c e IHe].
    + reflexivity.
    + change (String c e +:+ "/" +:+ j +:+ String "/"%char name)
        with (String c (e +:+ "/" +:+ j +:+ String "/"%char name)).
      rewrite IHe. reflexivity.
Qed.

Lemma Clean_slash_name x name :
  plain_name name ->
  filepath_Clean (x +:+ String "/"%char name) = name \/
  exists y, filepath_Clean (x +:+ String "/"%char name) = y +:+ String "/"%char name.
Proof.
  intros Hname. unfold filepath_Clean.
  destruct (x +:+ String "/"%char name) as [|c p] eqn:Hpath.
  { destruct x; discriminate. }
  rewrite <- Hpath. clear Hpath p.
  destruct Hname as (Hne & Hdot & Hdots & Hsep).
  rewrite path_elements_slash, (path_elements_name name Hsep), fold_left_app.
  cbn [fold_left].
  rewrite clean_step_plain by (repeat split; assumption).
  cbn [rev]. set (kept := rev _).
  destruct kept as [|e l].
  - destruct (is_separator c).
    + right. exists EmptyString. reflexivity.
    + left. reflexivity.
  - rewrite join_elements_last by discriminate.
    destruct (is_separator c).
    + right. exists ("/" +:+ join_elements (e :: l)). reflexivity.
    + right. exists (join_elements (e :: l)). reflexivity.
Qed.

Lemma Clean_name name : plain_name name -> filepath_Clean name = name.
Proof.
  intros (Hne & Hdot & Hdots & Hsep). unfold filepath_Clean.
  destruct name as [|c r] eqn:Hname; [congruence|]. rewrite <- Hname in *.
  rewrite (path_elements_name name Hsep). cbn [fold_left].
  rewrite clean_step_plain by (repeat split; assumption).
  cbn [rev app].
  assert (Hc : is_separator c = false).
  { unfold no_separator in Hsep. rewrite Hname in Hsep. simpl in Hsep.
    now apply orb_false_elim in Hsep as [Hc _]. }
  rewrite Hc. reflexivity.
Qed.

Lemma Join_cases dir name :
  plain_name name ->
  filepath_Join dir name = name \/
  exists x, filepath_Join dir name = x +:+ String "/"%char name.
Proof.
  intros Hname. unfold filepath_Join.
  destruct dir as [|d dir].
  - destruct name as [|c r] eqn:Hn; [now destruct Hname|].
    left. now apply Clean_name.
  - apply (Clean_slash_name (String d dir) name Hname).
Qed.

Lemma Base_of_Join dir name :
  plain_name name -> filepath_Base (filepath_Join dir name) = name.
Proof.
  intros Hname. pose proof Hname as (Hne & _ & _ & Hsep).
  destruct (Join_cases dir name Hname) as [-> | [x ->]];
    apply Base_nonempty; auto.
  - now rewrite strip_trailing_name, last_element_name.
  - destruct x; discriminate.
  - rewrite path_assoc, strip_trailing_before_name, <- path_assoc by auto.
    now apply last_element_path.
Qed.

(** [Join] cleans what it joins. *)
Example Join_cleans :
  filepath_Join "/v/" "merged.mp4" = "/v/merged.mp4" /\
  filepath_Join "/v" "*.chunk" = "/v/*.chunk" /\
  filepath_Join "a//b/./c" "../d" = "a/b/d" /\
  filepath_Join "/videos/123" "." = "/videos/123" /\
  filepath_Join "/videos/123" ".." = "/videos" /\
  filepath_Join "" "x" = "x" /\
  filepath_Join "a" ".." = ".".
Proof. vm_compute. repeat split. Qed.

(** Joined with [.], a directory is its own last element, and its
    digits are the key. *)
Example dot_takes_the_key_of_the_directory :
  extractNumber (filepath_Join "/videos/123" ".") = 123 /\
  extractNumber "." = -1.
Proof. split; vm_compute; reflexivity. Qed.

(** The key of a chunk is the key of its file name: the directory the
    chunk lies in, digits included, does not enter. The file name is a
    plain path element, as a directory enumeration returns them: not
    empty, without a slash, and neither [.] nor [..], which [Join]
    would resolve against the directory. *)
Theorem extractNumber_ignores_directory (dir name : string) :
  plain_name name ->
  extractNumber (filepath_Join dir name) = extractNumber name /\
  extractNumber name =
    match strconv_Atoi (regexp_digits_FindString name) with
    | (num, None) => num
    | (_, Some _) => -1
    end.
Proof.
  intros Hname.
  pose proof (Base_of_Join dir name Hname) as Hjoin.
  pose proof (Base_of_Join EmptyString name Hname) as Hplain.
  unfold filepath_Join in Hplain at 1.
  destruct name as [|c r] eqn:Hn; [now destruct Hname|]. rewrite <- Hn in *.
  rewrite (Clean_name name Hname) in Hplain.
  unfold extractNumber. rewrite Hjoin, Hplain. split; reflexivity.
Qed.

Lemma extractNumber_directory_witness :
  extractNumber (filepath_Join "/videos/123" "7.chunk")
    = extractNumber "7.chunk" /\
  extractNumber "7.chunk" =
    match strconv_Atoi (regexp_digits_FindString "7.chunk") with
    | (num, None) => num
    | (_, Some _) => -1
    end.
Proof.
  apply (extractNumber_ignores_directory "/videos/123" "7.chunk").
  repeat split; discriminate.
Defined.

(** ** The comparison and the order of the merge *)

(** The comparison [mergeChunks] hands to [sort.Slice] is what
    [sort.Slice] asks for: a strict weak ordering of the file names. *)
Theorem chunk_less_meets_sort_requirement : strict_weak_ordering chunk_less.
Proof. exact chunk_less_ordering. Qed.



(** ** Merging: what is left untouched *)

(** When the enumeration fails or the output file cannot be created,
    [mergeChunks] returns an error that names the step and changes
    nothing: no file is created or truncated. *)
Theorem mergeChunks_early_failure_changes_nothing
  (sort_Slice : (string -> string -> bool) -> list string -> list string)
  (inputDir outputFile : string) (w : World) :
  snd (w_glob w (filepath_Join inputDir "*.chunk")) <> None \/
  w_deny_create w outputFile <> None \/
  w_fs w !! outputFile = Some Directory ->
  exists cause,
    (mergeChunks sort_Slice inputDir outputFile w =
       Returned (Some ("failed to find chunks: " +:+ cause)) w /\
     snd (w_glob w (filepath_Join inputDir "*.chunk")) = Some cause) \/
    (mergeChunks sort_Slice inputDir outputFile w =
       Returned (Some ("failed to create output file: " +:+ cause)) w /\
     snd (w_glob w (filepath_Join inputDir "*.chunk")) = None).
Proof.
  intros Hcase. unfold mergeChunks, filepath_Glob. run.
  destruct (w_glob w (filepath_Join inputDir "*.chunk")) as [chunks [e|]];
    simpl in *.
  - exists e. left. split; reflexivity.
  - unfold os_Create.
    destruct (w_deny_create w outputFile) as [e|].
    + eexists. right. split; reflexivity.
    + destruct Hcase as [H | [H | H]]; try congruence.
      rewrite H. eexists. right. split; reflexivity.
Qed.

Lemma mergeChunks_bad_pattern_witness :
  exists cause,
    (mergeChunks insertion_sort "/v" "/v/merged.mp4" world_bad_pattern =
       Returned (Some ("failed to find chunks: " +:+ cause)) world_bad_pattern /\
     snd (w_glob world_bad_pattern (filepath_Join "/v" "*.chunk")) = Some cause)
    \/
    (mergeChunks insertion_sort "/v" "/v/merged.mp4" world_bad_pattern =
       Returned (Some ("failed to create output file: " +:+ cause))
         world_bad_pattern /\
     snd (w_glob world_bad_pattern (filepath_Join "/v" "*.chunk")) = None).
Proof.
  apply (mergeChunks_early_failure_changes_nothing insertion_sort
           "/v" "/v/merged.mp4" world_bad_pattern).
  left. discriminate.
Defined.

Lemma write_end_other_files output d w k err w' :
  write_end output d w = (k, err, w') ->
  forall p, p <> output -> w_fs w' !! p = w_fs w !! p.
Proof.
  unfold write_end. intros H p Hp.
  destruct (_ <? _)%nat; injection H as _ _ <-; simpl;
    now apply lookup_alter_ne.
Qed.

Lemma copyChunks_other_files output chunks : forall w r w',
  copyChunks output chunks w = Returned r w' ->
  forall p, p <> output -> w_fs w' !! p = w_fs w !! p.
Proof.
  induction chunks as [|c rest IH]; intros w r w'; cbn [copyChunks]; run.
  - intros [= _ <-]. reflexivity.
  - unfold os_Open. destruct (w_deny_open w c) as [denied|];
      [intros [= _ <-]; eauto|].
    destruct (w_fs w !! c) as [n|] eqn:Hn;
      [|intros [= _ <-]; reflexivity].
    unfold File_ReadFrom. rewrite Hn.
    destruct n as [d|d e|]; [| |intros [= _ <-]; reflexivity].
    + destruct (write_end output d w) as [[k err] w1] eqn:Hw.
      pose proof (write_end_other_files _ _ _ _ _ _ Hw) as Hoth.
      destruct err as [e|]; [intros [= _ <-]; exact Hoth|].
      unfold File_Close. run. intros Hrun p Hp.
      rewrite (IH _ _ _ Hrun p Hp). now apply Hoth.
    + destruct (write_end output d w) as [[k err] w1] eqn:Hw.
      pose proof (write_end_other_files _ _ _ _ _ _ Hw) as Hoth.
      destruct err as [e'|]; intros [= _ <-]; exact Hoth.
Qed.

(** [mergeChunks] writes to the output file only: whatever happens, every
    other path -- the chunks among them -- names afterwards what it
    named before, and the log, the clock and the database are as they
    were. *)
Theorem mergeChunks_touches_only_output
  (sort_Slice : (string -> string -> bool) -> list string -> list string)
  (inputDir outputFile : string) (w : World) :
  exists r w',
    mergeChunks sort_Slice inputDir outputFile w = Returned r w' /\
    (forall p, p <> outputFile -> w_fs w' !! p = w_fs w !! p) /\
    w_log w' = w_log w /\ w_clock w' = w_clock w /\ w_db w' = w_db w.
Proof.
  destruct (mergeChunks_total sort_Slice inputDir outputFile w)
    as (r & w' & Hrun & Hfo).
  exists r, w'. split; [exact Hrun|].
  split; [|rewrite Hfo; auto].
  revert Hrun. unfold mergeChunks, filepath_Glob. run.
  destruct (w_glob w _) as [chunks [e|]]; [intros [= _ <-]; reflexivity|].
  unfold os_Create.
  destruct (w_deny_create w outputFile) as [e|];
    [intros [= _ <-]; reflexivity|].
  assert (Hgo : forall w0,
    (forall p, p <> outputFile -> w_fs w0 !! p = w_fs w !! p) ->
    (match copyChunks outputFile (sort_Slice chunk_less chunks) w0 with
     | Returned a w1 =>
         match File_Close outputFile w1 with
         | Returned _ w2 => Returned a w2
         | Panicked reason => Panicked reason
         end
     | Panicked reason => Panicked reason
     end) = Returned r w' ->
    forall p, p <> outputFile -> w_fs w' !! p = w_fs w !! p).
  { intros w0 H0.
    destruct (copyChunks outputFile _ w0) as [a w1|] eqn:Hcopy;
      [|discriminate].
    unfold File_Close. run. intros [= _ <-] p Hp.
    rewrite (copyChunks_other_files _ _ _ _ _ Hcopy p Hp). now apply H0. }
  destruct (w_fs w !! outputFile) as [[| |]|] eqn:Hout;
    try (apply Hgo; intros p Hp; simpl; now apply lookup_insert_ne).
  intros [= _ <-]. reflexivity.
Qed.

(** [os.Create] truncates: once the output file is created, what an
    earlier run left in it does not enter the merge; the run is the
    same as without the leftover. *)
Theorem mergeChunks_discards_old_output
  (sort_Slice : (string -> string -> bool) -> list string -> list string)
  (inputDir outputFile : string) (w : World) (old : list byte) :
  snd (w_glob w (filepath_Join inputDir "*.chunk")) = None ->
  w_deny_create w outputFile = None ->
  w_fs w !! outputFile <> Some Directory ->
  mergeChunks sort_Slice inputDir outputFile
    (set_fs (<[outputFile := Regular old]> (w_fs w)) w)
  = mergeChunks sort_Slice inputDir outputFile w.
Proof.
  intros Hglob Hdeny Hdir. unfold mergeChunks, filepath_Glob. run. simpl.
  destruct (w_glob w _) as [chunks [e|]]; [discriminate Hglob|].
  unfold os_Create. simpl. rewrite Hdeny, lookup_insert_eq, insert_insert_eq.
  destruct (w_fs w !! outputFile) as [[| |]|]; try reflexivity. congruence.
Qed.

Lemma mergeChunks_stale_witness :
  mergeChunks insertion_sort "/v" "/v/merged.mp4"
    (set_fs (<["/v/merged.mp4" := Regular (bytes_of "AAB")]>
               (w_fs world_numbered)) world_numbered)
  = mergeChunks insertion_sort "/v" "/v/merged.mp4" world_numbered.
Proof.
  apply (mergeChunks_discards_old_output insertion_sort "/v" "/v/merged.mp4"
           world_numbered (bytes_of "AAB")).
  - reflexivity.
  - reflexivity.
  - vm_compute. discriminate.
Defined.

(** ** Merging: when it must succeed *)

(** If every enumerated chunk is a regular file that may be opened,
    none of them is the output file, the device has room for the bytes
    of all chunks together and the output file can be created, the
    merge succeeds, and the output file holds the chunks in sorted
    order. *)
Theorem mergeChunks_succeeds_on_readable_chunks
  (sort_Slice : (string -> string -> bool) -> list string -> list string)
  (inputDir outputFile : string) (chunks : list string) (w : World) :
  sort_contract sort_Slice ->
  w_glob w (filepath_Join inputDir "*.chunk") = (chunks, None) ->
  w_deny_create w outputFile = None ->
  w_fs w !! outputFile <> Some Directory ->
  has_room w (total_size (w_fs w) chunks) ->
  may_open w chunks ->
  Forall (is_regular (w_fs w)) chunks ->
  ~ In outputFile chunks ->
  exists w',
    mergeChunks sort_Slice inputDir outputFile w = Returned None w' /\
    w_fs w' !! outputFile =
      Some (Regular (concat (map (file_content (w_fs w))
                               (sort_Slice chunk_less chunks)))).
Proof.
  intros Hsort Hglob Hdeny Hdir Hroom Hopen Hreg Hnot.
  destruct (mergeChunks_succeeds sort_Slice inputDir outputFile w chunks)
    as [w' Hrun]; auto.
  exists w'. split; [exact Hrun|].
  destruct (mergeChunks_spec sort_Slice Hsort inputDir outputFile w chunks
              Hglob Hdeny Hdir Hnot) as (r & w1 & Hrun1 & _ & _ & Hres).
  rewrite Hrun in Hrun1. injection Hrun1 as <- <-.
  apply Hres.
Qed.

Lemma mergeChunks_readable_witness :
  exists w',
    mergeChunks insertion_sort "/v" "/v/merged.mp4" world_exact_fit
      = Returned None w' /\
    w_fs w' !! "/v/merged.mp4" =
      Some (Regular (concat (map (file_content (w_fs world_exact_fit))
                               (insertion_sort chunk_less three_chunks)))).
Proof.
  apply (mergeChunks_succeeds_on_readable_chunks insertion_sort
           "/v" "/v/merged.mp4" three_chunks world_exact_fit).
  - apply insertion_sort_contract.
  - reflexivity.
  - reflexivity.
  - vm_compute. discriminate.
  - vm_compute. lia.
  - repeat constructor.
  - repeat constructor; eexists; vm_compute; reflexivity.
  - intros [H|[H|[H|[]]]]; discriminate H.
Defined.

(** ** The pipeline: what a run leaves in the log and on disk *)

Lemma files_only_log_eq w w' : files_only w w' -> w_log w' = w_log w.
Proof. intros ->. reflexivity. Qed.

Lemma files_only_clock_eq w w' : files_only w w' -> w_clock w' = w_clock w.
Proof. intros ->. reflexivity. Qed.

(** A successful run of [processVideo] writes the five progress records,
    in this order, and nothing else: no error record, and the clock is
    not read. *)
Theorem processVideo_success_log
  (sort_Slice : (string -> string -> bool) -> list string -> list string)
  (task : VideoTask) (w w' : World) :
  processVideo sort_Slice task w = Returned None w' ->
  w_log w' =
    w_log w ++
    [mkLog LevelInfo "Merging chunks" [("path", VString (Path task))];
     mkLog LevelInfo "Creating mpeg-dash dir" [("path", VString (Path task))];
     mkLog LevelInfo "Converting video to mpeg-dash"
       [("path", VString (Path task))];
     mkLog LevelInfo "Video convert to mpeg-dash"
       [("path", VString (filepath_Join (Path task) "mpeg-dash"))];
     mkLog LevelInfo "Removing merged file"
       [("path", VString (filepath_Join (Path task) "merged.mp4"))]] /\
  w_clock w' = w_clock w.
Proof.
  unfold processVideo. run. unfold slog_Info at 1.
  destruct (mergeChunks_total sort_Slice (Path task)
              (filepath_Join (Path task) "merged.mp4")
              (set_log (w_log w ++ [mkLog LevelInfo "Merging chunks"
                                      [("path", VString (Path task))]]) w))
    as (r1 & w1 & -> & Hfo1).
  pose proof (files_only_log_eq _ _ Hfo1) as Hlog1.
  pose proof (files_only_clock_eq _ _ Hfo1) as Hclock1.
  simpl in Hlog1, Hclock1.
  destruct r1 as [e1|]; [rewrite logError_Some; discriminate|].
  unfold slog_Info at 1, os_MkdirAll. simpl.
  destruct (w_deny_mkdir w1 _) as [e2|]; [rewrite logError_Some; discriminate|].
  destruct (w_fs w1 !! filepath_Join (Path task) "mpeg-dash") as [[| |]|];
    try (rewrite logError_Some; discriminate).
  all: unfold exec_CombinedOutput; simpl.
  all: destruct (w_exec w1 _ _) as [e3|fs3 out3 code3];
    try (rewrite logError_Some; discriminate).
  all: destruct (code3 =? 0); try (rewrite logError_Some; discriminate).
  all: unfold os_Remove; simpl.
  all: destruct (w_deny_remove w1 _) as [e4|];
    try (rewrite logError_Some; discriminate).
  all: destruct (fs3 !! _) as [n|]; try (rewrite logError_Some; discriminate).
  all: intros [= <-]; simpl; rewrite Hlog1, Hclock1, <- !app_assoc;
    split; reflexivity.
Qed.

Lemma processVideo_success_log_witness :
  w_log (world_of (processVideo insertion_sort task_7 world_numbered)
           world_numbered) =
    w_log world_numbered ++
    [mkLog LevelInfo "Merging chunks" [("path", VString (Path task_7))];
     mkLog LevelInfo "Creating mpeg-dash dir" [("path", VString (Path task_7))];
     mkLog LevelInfo "Converting video to mpeg-dash"
       [("path", VString (Path task_7))];
     mkLog LevelInfo "Video convert to mpeg-dash"
       [("path", VString (filepath_Join (Path task_7) "mpeg-dash"))];
     mkLog LevelInfo "Removing merged file"
       [("path", VString (filepath_Join (Path task_7) "merged.mp4"))]] /\
  w_clock (world_of (processVideo insertion_sort task_7 world_numbered)
             world_numbered) = w_clock world_numbered.
Proof.
  apply (processVideo_success_log insertion_sort task_7 world_numbered).
  vm_compute. reflexivity.
Defined.

(** A failure of [processVideo] is logged twice: by the step that
    failed, and again by [Handle] as [failed to process video]; the two
    records, the last of the log, carry the same error. *)
Theorem processing_failure_is_logged_twice
  (sort_Slice : (string -> string -> bool) -> list string -> list string)
  (json_Unmarshal : list byte -> VideoTask -> VideoTask * option error)
  (msg : list byte) (task : VideoTask) (w w1 : World) (e : error) :
  json_Unmarshal msg zero_task = (task, None) ->
  processVideo sort_Slice task w = Returned (Some e) w1 ->
  exists w' earlier step,
    Handle sort_Slice json_Unmarshal msg w = Returned tt w' /\
    w_log w' =
      earlier ++
      [error_record task step e (pred (w_clock w1));
       error_record task "failed to process video" e (w_clock w1)].
Proof.
  intros Hdecode Hrun.
  destruct (processVideo_returns sort_Slice task w)
    as (r & w1' & Hrun' & _ & _ & Hlast).
  rewrite Hrun in Hrun'. injection Hrun' as <- <-.
  destruct (Hlast e eq_refl) as [step Hstep].
  apply last_Some in Hstep as [earlier Hlog].
  exists (logged_error task "failed to process video" e w1), earlier, step.
  split.
  - unfold Handle. rewrite Hdecode. run. rewrite Hrun.
    now rewrite logError_Some.
  - simpl. rewrite Hlog, <- app_assoc. reflexivity.
Qed.

Lemma processing_failure_witness :
  exists w' earlier step,
    Handle insertion_sort sample_Unmarshal sample_message world_bad_video
      = Returned tt w' /\
    w_log w' =
      earlier ++
      [error_record task_7 step "exit status 1"
         (pred (w_clock (world_of (processVideo insertion_sort task_7
                                     world_bad_video) world_bad_video)));
       error_record task_7 "failed to process video" "exit status 1"
         (w_clock (world_of (processVideo insertion_sort task_7
                               world_bad_video) world_bad_video))].
Proof.
  apply (processing_failure_is_logged_twice insertion_sort sample_Unmarshal
           sample_message task_7 world_bad_video).
  - reflexivity.
  - vm_compute. reflexivity.
Defined.

(** When the output directory cannot be created, [processVideo] stops
    with that error: the transcoder is not run and the merged file is
    not removed -- the files are as the merge left them. *)
Theorem processVideo_mkdir_failure_keeps_merged_file
  (sort_Slice : (string -> string -> bool) -> list string -> list string)
  (task : VideoTask) (w w1 w2 : World) (e : error) :
  mergeChunks sort_Slice (Path task) (filepath_Join (Path task) "merged.mp4")
    (logged_info "Merging chunks" [("path", VString (Path task))] w)
    = Returned None w1 ->
  os_MkdirAll (filepath_Join (Path task) "mpeg-dash")
    (logged_info "Creating mpeg-dash dir" [("path", VString (Path task))] w1)
    = Returned (Some e) w2 ->
  exists w',
    processVideo sort_Slice task w = Returned (Some e) w' /\
    w_fs w' = w_fs w1 /\
    last (w_log w') =
      Some (error_record task "failed to create mpeg-dash directory" e
              (w_clock w1)).
Proof.
  intros Hmerge Hmkdir. unfold logged_info in Hmerge, Hmkdir.
  unfold processVideo. run. unfold slog_Info at 1. rewrite Hmerge.
  unfold slog_Info at 1. rewrite Hmkdir. rewrite logError_Some.
  eexists. split; [reflexivity|].
  assert (Hw2 : w_fs w2 = w_fs w1 /\ w_clock w2 = w_clock w1).
  { revert Hmkdir. unfold os_MkdirAll. simpl.
    destruct (w_deny_mkdir w1 _) as [e2|]; [intros [= _ <-]; auto|].
    destruct (w_fs w1 !! _) as [[| |]|]; intros H; try discriminate H;
      injection H as _ <-; auto. }
  destruct Hw2 as [Hfs Hclock]. simpl. rewrite Hfs, Hclock.
  split; [reflexivity | apply last_snoc].
Qed.

Lemma processVideo_mkdir_failure_witness :
  exists w',
    processVideo insertion_sort task_7 world_dash_taken =
      Returned (Some "mkdir /v/mpeg-dash: not a directory") w' /\
    w_fs w' = w_fs (after_merge task_7 world_dash_taken) /\
    last (w_log w') =
      Some (error_record task_7 "failed to create mpeg-dash directory"
              "mkdir /v/mpeg-dash: not a directory"
              (w_clock (after_merge task_7 world_dash_taken))).
Proof.
  apply (processVideo_mkdir_failure_keeps_merged_file insertion_sort task_7
           world_dash_taken (after_merge task_7 world_dash_taken)
           (after_mkdir task_7 world_dash_taken)).
  - vm_compute. reflexivity.
  - vm_compute. reflexivity.
Defined.

(** When the transcoder has succeeded and the merged file cannot be
    removed, [processVideo] reports the run as failed with the error of
    the removal; the files are as the transcoder left them. *)
Theorem processVideo_remove_failure_after_transcoding
  (sort_Slice : (string -> string -> bool) -> list string -> list string)
  (task : VideoTask) (w w1 w2 : World)
  (fs' : gmap string node) (output : list byte) :
  mergeChunks sort_Slice (Path task) (filepath_Join (Path task) "merged.mp4")
    (logged_info "Merging chunks" [("path", VString (Path task))] w)
    = Returned None w1 ->
  os_MkdirAll (filepath_Join (Path task) "mpeg-dash")
    (logged_info "Creating mpeg-dash dir" [("path", VString (Path task))] w1)
    = Returned None w2 ->
  w_exec w2 (ffmpeg_args task) (w_fs w2) = Exited fs' output 0 ->
  w_deny_remove w2 (filepath_Join (Path task) "merged.mp4") <> None \/
  fs' !! filepath_Join (Path task) "merged.mp4" = None ->
  exists e w',
    processVideo sort_Slice task w = Returned (Some e) w' /\
    w_fs w' = fs' /\
    last (w_log w') =
      Some (error_record task "failed to remove merged file" e (w_clock w2)).
Proof.
  intros Hmerge Hmkdir Hexec Hremove. unfold logged_info in Hmerge, Hmkdir.
  unfold processVideo. run. unfold slog_Info at 1. rewrite Hmerge.
  unfold slog_Info at 1. rewrite Hmkdir.
  unfold slog_Info at 1, exec_CombinedOutput. simpl.
  fold (ffmpeg_args task). rewrite Hexec. simpl.
  unfold slog_Info, os_Remove. simpl.
  destruct (w_deny_remove w2 _) as [cause|].
  - rewrite logError_Some. eexists _, _. split; [reflexivity|].
    simpl. split; [reflexivity | apply last_snoc].
  - destruct Hremove as [H | H]; [congruence|]. rewrite H.
    rewrite logError_Some. eexists _, _. split; [reflexivity|].
    simpl. split; [reflexivity | apply last_snoc].
Qed.

Lemma processVideo_remove_failure_witness :
  exists e w',
    processVideo insertion_sort task_7 world_locked = Returned (Some e) w' /\
    w_fs w' =
      <["/v/mpeg-dash/output.mpd" := Regular (bytes_of "<MPD/>")]>
        (w_fs (after_mkdir task_7 world_locked)) /\
    last (w_log w') =
      Some (error_record task_7 "failed to remove merged file" e
              (w_clock (after_mkdir task_7 world_locked))).
Proof.
  apply (processVideo_remove_failure_after_transcoding insertion_sort task_7
           world_locked (after_merge task_7 world_locked)
           (after_mkdir task_7 world_locked) _ (bytes_of "muxing overhead: 0.1%")).
  - vm_compute. reflexivity.
  - vm_compute. reflexivity.
  - vm_compute. reflexivity.
  - left. vm_compute. discriminate.
Defined.

(** ** The pipeline: what the transcoder is given *)

Lemma write_end_output_regular output d w k err w' old :
  w_fs w !! output = Some (Regular old) ->
  write_end output d w = (k, err, w') ->
  exists data, w_fs w' !! output = Some (Regular data).
Proof.
  intros Hout Hw.
  destruct (write_end_spec output d w old Hout)
    as (k' & err' & w'' & Hw' & _ & Hout' & _).
  rewrite Hw in Hw'. injection Hw' as _ _ <-. eauto.
Qed.

Lemma copyChunks_output_regular output chunks : forall w r w' old,
  w_fs w !! output = Some (Regular old) ->
  copyChunks output chunks w = Returned r w' ->
  exists data, w_fs w' !! output = Some (Regular data).
Proof.
  induction chunks as [|c rest IH]; intros w r w' old Hout;
    cbn [copyChunks]; run.
  - intros [= _ <-]. eauto.
  - unfold os_Open. destruct (w_deny_open w c) as [denied|];
      [intros [= _ <-]; eauto|].
    destruct (w_fs w !! c) as [n|] eqn:Hn;
      [|intros [= _ <-]; eauto].
    unfold File_ReadFrom. rewrite Hn.
    destruct n as [d|d e|]; [| |intros [= _ <-]; eauto].
    + destruct (write_end output d w) as [[k err] w1] eqn:Hw.
      destruct (write_end_output_regular _ _ _ _ _ _ _ Hout Hw) as [data Hd].
      destruct err as [e|]; [intros [= _ <-]; eauto|].
      unfold File_Close. run. intros Hrun. eapply IH; eauto.
    + destruct (write_end output d w) as [[k err] w1] eqn:Hw.
      destruct (write_end_output_regular _ _ _ _ _ _ _ Hout Hw) as [data Hd].
      destruct err as [e'|]; intros [= _ <-]; eauto.
Qed.

Lemma mergeChunks_success_output_regular sort inputDir outputFile w w' :
  mergeChunks sort inputDir outputFile w = Returned None w' ->
  exists data, w_fs w' !! outputFile = Some (Regular data).
Proof.
  unfold mergeChunks, filepath_Glob. run.
  destruct (w_glob w _) as [chunks [e|]]; [discriminate|].
  unfold os_Create.
  destruct (w_deny_create w outputFile) as [e|]; [discriminate|].
  assert (Hgo : forall w0,
    w_fs w0 !! outputFile = Some (Regular []) ->
    (match copyChunks outputFile (sort chunk_less chunks) w0 with
     | Returned a w1 =>
         match File_Close outputFile w1 with
         | Returned _ w2 => Returned a w2
         | Panicked reason => Panicked reason
         end
     | Panicked reason => Panicked reason
     end) = Returned None w' ->
    exists data, w_fs w' !! outputFile = Some (Regular data)).
  { intros w0 H0.
    destruct (copyChunks outputFile _ w0) as [a w1|] eqn:Hcopy;
      [|discriminate].
    unfold File_Close. run. intros [= _ <-].
    eapply copyChunks_output_regular; eauto. }
  destruct (w_fs w !! outputFile) as [[| |]|];
    try (apply Hgo; simpl; apply lookup_insert_eq).
  discriminate.
Qed.

Lemma Join_differs dir dir' name name' :
  plain_name name -> plain_name name' -> name <> name' ->
  filepath_Join dir name <> filepath_Join dir' name'.
Proof.
  intros Hn Hn' Hne Heq. apply Hne.
  rewrite <- (Base_of_Join dir name Hn), <- (Base_of_Join dir' name' Hn').
  now rewrite Heq.
Qed.

Lemma files_only_exec w w' : files_only w w' -> w_exec w' = w_exec w.
Proof. intros ->. reflexivity. Qed.

Lemma files_only_deny_remove w w' :
  files_only w w' -> w_deny_remove w' = w_deny_remove w.
Proof. intros ->. reflexivity. Qed.

Lemma MkdirAll_success path w w' :
  os_MkdirAll path w = Returned None w' ->
  files_only w w' /\ forall p, p <> path -> w_fs w' !! p = w_fs w !! p.
Proof.
  unfold os_MkdirAll. destruct (w_deny_mkdir w path) as [e|]; [discriminate|].
  destruct (w_fs w !! path) as [[| |]|]; intros H; try discriminate H;
    injection H as <-.
  - split; [apply files_only_refl | reflexivity].
  - split; [now destruct w|]. intros p Hp. simpl. now apply lookup_insert_ne.
Qed.

(** The transcoder is given the merged file: with a transcoder that
    copies the file named after [-i] to the manifest, a run in which the
    merge and the creation of the output directory succeed and the
    merged file may be removed ends without error; the manifest then
    holds the bytes the merge wrote, and the merged file is gone. *)
Theorem transcoder_is_given_the_merged_file
  (sort_Slice : (string -> string -> bool) -> list string -> list string)
  (task : VideoTask) (w w1 w2 : World) :
  w_exec w = ffmpeg_copies_input ->
  w_deny_remove w (filepath_Join (Path task) "merged.mp4") = None ->
  mergeChunks sort_Slice (Path task) (filepath_Join (Path task) "merged.mp4")
    (logged_info "Merging chunks" [("path", VString (Path task))] w)
    = Returned None w1 ->
  os_MkdirAll (filepath_Join (Path task) "mpeg-dash")
    (logged_info "Creating mpeg-dash dir" [("path", VString (Path task))] w1)
    = Returned None w2 ->
  exists data w',
    w_fs w1 !! filepath_Join (Path task) "merged.mp4" = Some (Regular data) /\
    processVideo sort_Slice task w = Returned None w' /\
    w_fs w' !! filepath_Join (filepath_Join (Path task) "mpeg-dash") "output.mpd"
      = Some (Regular data) /\
    w_fs w' !! filepath_Join (Path task) "merged.mp4" = None.
Proof.
  intros Hcopy Hrm Hmerge Hmkdir.
  set (merged := filepath_Join (Path task) "merged.mp4") in *.
  set (dash := filepath_Join (Path task) "mpeg-dash") in *.
  set (manifest := filepath_Join dash "output.mpd").
  assert (Hplain : forall name, In name ["merged.mp4"; "mpeg-dash"; "output.mpd"] ->
            plain_name name).
  { intros name [<-|[<-|[<-|[]]]]; repeat split; discriminate. }
  assert (Hmd : merged <> dash)
    by (apply Join_differs; try apply Hplain; simpl; auto; discriminate).
  assert (Hmm : manifest <> merged)
    by (apply Join_differs; try apply Hplain; simpl; auto; discriminate).
  destruct (mergeChunks_success_output_regular _ _ _ _ _ Hmerge)
    as [data Hdata].
  destruct (mergeChunks_total sort_Slice (Path task) merged
              (logged_info "Merging chunks" [("path", VString (Path task))] w))
    as (r & w1' & Hrun & Hfo1).
  rewrite Hmerge in Hrun. injection Hrun as <- <-.
  destruct (MkdirAll_success _ _ _ Hmkdir) as [Hfo2 Hfs2].
  assert (Hexec2 : w_exec w2 = ffmpeg_copies_input).
  { rewrite (files_only_exec _ _ Hfo2). simpl.
    rewrite (files_only_exec _ _ Hfo1). exact Hcopy. }
  assert (Hrm2 : w_deny_remove w2 merged = None).
  { rewrite (files_only_deny_remove _ _ Hfo2). simpl.
    rewrite (files_only_deny_remove _ _ Hfo1). exact Hrm. }
  assert (Hdata2 : w_fs w2 !! merged = Some (Regular data)).
  { rewrite (Hfs2 merged Hmd). exact Hdata. }
  exists data. unfold logged_info in Hmerge, Hmkdir.
  unfold processVideo. run. unfold slog_Info at 1. fold merged. rewrite Hmerge.
  unfold slog_Info at 1. fold dash. rewrite Hmkdir.
  unfold slog_Info at 1, exec_CombinedOutput. simpl.
  rewrite Hexec2. unfold ffmpeg_copies_input.
  destruct (List.list_eq_dec string_dec _ _) as [_|Hne]; [|congruence].
  rewrite Hdata2. simpl.
  unfold slog_Info, os_Remove. simpl. rewrite Hrm2.
  fold manifest. rewrite (lookup_insert_ne _ manifest merged) by exact Hmm.
  rewrite Hdata2.
  eexists. split; [exact Hdata|]. split; [reflexivity|]. simpl.
  split.
  - rewrite lookup_delete_ne by auto. apply lookup_insert_eq.
  - apply lookup_delete_eq.
Qed.

Lemma transcoder_copy_witness :
  exists data w',
    w_fs (after_merge task_7 world_copying)
      !! filepath_Join (Path task_7) "merged.mp4" = Some (Regular data) /\
    processVideo insertion_sort task_7 world_copying = Returned None w' /\
    w_fs w' !! filepath_Join (filepath_Join (Path task_7) "mpeg-dash") "output.mpd"
      = Some (Regular data) /\
    w_fs w' !! filepath_Join (Path task_7) "merged.mp4" = None.
Proof.
  apply (transcoder_is_given_the_merged_file insertion_sort task_7 world_copying
           (after_merge task_7 world_copying)
           (after_mkdir task_7 world_copying)).
  - reflexivity.
  - reflexivity.
  - vm_compute. reflexivity.
  - vm_compute. reflexivity.
Defined.
